(** * Deisotoper::deisotopeAndSingleCharge (OpenMS)

    A shallow embedding of the isotope deconvolution routine of
    [Deisotoper.cpp] and the properties of its seed-and-extend search,
    its peak selection and its error behaviour.

    Two smaller units of the repository follow the routine: the
    comparison operators of [Identification::SearchParameters] and the
    tokenizer of [common_functions.php].

    Peaks carry binary64 values, modelled by the primitive floats of the
    kernel; vectors indexed by peak position are lists read with [!!!] and
    written with [<[i:=x]>]. *)

From Stdlib Require Import ZArith Floats Uint63 Lia Bool.
From Stdlib Require Import Strings.String Strings.Ascii.
From stdpp Require Import base list sorting.

Local Open Scope Z_scope.
Local Open Scope nat_scope.
Set Warnings "-inexact-float".

(** ** Data model: MSSpectrum, Peak1D, Precursor, IntegerDataArray *)

Record Peak1D := mkPeak { getMZ : float; getIntensity : float }.

Record Precursor := mkPrecursor { precursorMZ : float; precursorCharge : Z }.

Record IntegerDataArray := mkIDA { getName : string; ida_data : list Z }.

Record MSSpectrum := mkSpectrum {
  peaks : list Peak1D;
  getIntegerDataArrays : list IntegerDataArray;
  getPrecursors : list Precursor
}.

#[global] Instance Peak1D_inhabited : Inhabited Peak1D :=
  populate (mkPeak 0%float 0%float).
#[global] Instance float_inhabited : Inhabited float := populate 0%float.
#[global] Instance IntegerDataArray_inhabited : Inhabited IntegerDataArray :=
  populate (mkIDA EmptyString []).

Definition setIntensity (x : float) (pk : Peak1D) : Peak1D :=
  mkPeak (getMZ pk) x.
Definition setMZ (x : float) (pk : Peak1D) : Peak1D :=
  mkPeak x (getIntensity pk).
Definition push_back (v : Z) (a : IntegerDataArray) : IntegerDataArray :=
  mkIDA (getName a) (ida_data a ++ [v]).

Definition with_peaks (s : MSSpectrum) (pks : list Peak1D) : MSSpectrum :=
  mkSpectrum pks (getIntegerDataArrays s) (getPrecursors s).
Definition with_arrays (s : MSSpectrum) (arrs : list IntegerDataArray)
  : MSSpectrum :=
  mkSpectrum (peaks s) arrs (getPrecursors s).

(** ** Machine integers

    [mono_isotopic_peak] is a [std::vector<size_t>] that receives the
    [int] charge [q]; the annotation arrays receive [(int)] casts of
    [Size] values. *)

Definition to_size_t (q : Z) : Z := (q mod 2 ^ 64)%Z.
Definition to_int (z : Z) : Z := ((z + 2 ^ 31) mod 2 ^ 32 - 2 ^ 31)%Z.

(** [static_cast<double>] of an integer; exact below 2^53, which covers
    every isotope index and every charge of the search range. *)
Definition float_of_Z (z : Z) : float :=
  if (z <? 0)%Z then PrimFloat.opp (PrimFloat.of_uint63 (Uint63.of_Z (- z)))
  else PrimFloat.of_uint63 (Uint63.of_Z z).
Definition float_of_nat (n : nat) : float := float_of_Z (Z.of_nat n).

(** ** The call parameters of deisotopeAndSingleCharge *)

Record Params := mkParams {
  fragment_tolerance : float;
  fragment_unit_ppm : bool;
  min_charge : Z;
  max_charge : Z;
  keep_only_deisotoped : bool;
  min_isopeaks : nat;
  max_isopeaks : nat;
  make_single_charged : bool;
  annotate_charge : bool;
  annotate_iso_peak_count : bool;
  use_decreasing_model : bool;
  start_intensity_check : nat;
  add_up_intensity : bool
}.

(** ** Collaborators that are declared outside Deisotoper.cpp

    The routine calls [MSSpectrum::findNearest], [WindowMower::
    filterPeakSpectrum], [Math::ppmToMass] and reads three constants; their
    code is not part of the translation unit.  They are taken as an
    interface, so every general theorem below holds whatever they compute.
    - [findNearest pks mz tol] is the returned index, [None] standing for
      the return value -1;
    - [windowMowerKeeps pks i] tells whether the filter retains peak [i]:
      the routine reads the retained peaks back through the "index" array
      it attached, so the filter result is a sub-sequence of the indices;
    - [assertions] tells whether OPENMS_PRECONDITION is compiled in. *)

Class Kernel := {
  findNearest : list Peak1D -> float -> float -> option nat;
  windowMowerKeeps : list Peak1D -> nat -> bool;
  ppmToMass : float -> float -> float;
  PROTON_MASS : float;
  PROTON_MASS_U : float;
  C13C12_MASSDIFF_U : float;
  assertions : bool
}.

(** Modelled from the spec: MSSpectrum::isSorted is not among the sources;
    "sorted by m/z" is read as no peak having a larger m/z than its
    successor. *)
Fixpoint isSorted_from (prev : float) (l : list Peak1D) : bool :=
  match l with
  | [] => true
  | pk :: r => negb (PrimFloat.ltb (getMZ pk) prev) && isSorted_from (getMZ pk) r
  end.
Definition isSorted (s : MSSpectrum) : bool :=
  match peaks s with
  | [] => true
  | pk :: r => isSorted_from (getMZ pk) r
  end.

(** Modelled from the spec: MSSpectrum::select is not among the sources;
    the output "is restricted to the selected index set (including all
    auxiliary integer arrays, kept in lock-step with the peak list)". *)
Definition gather {A} (l : list A) (idx : list nat) : list A :=
  omap (fun i => l !! i) idx.
Definition select (idx : list nat) (s : MSSpectrum) : MSSpectrum :=
  mkSpectrum (gather (peaks s) idx)
             (map (fun a => mkIDA (getName a) (gather (ida_data a) idx))
                  (getIntegerDataArrays s))
             (getPrecursors s).

(** Modelled from the spec: MSSpectrum::sortByPosition is not among the
    sources; the output is "re-sorted by m/z position", arrays in
    lock-step.  The permutation is computed by a stable insertion sort. *)
Fixpoint insert_by_mz (pks : list Peak1D) (i : nat) (sorted : list nat)
  : list nat :=
  match sorted with
  | [] => [i]
  | j :: r =>
      if PrimFloat.ltb (getMZ (pks !!! i)) (getMZ (pks !!! j))
      then i :: j :: r
      else j :: insert_by_mz pks i r
  end.
Definition sorted_order (pks : list Peak1D) : list nat :=
  foldr (insert_by_mz pks) [] (seq 0 (length pks)).
Definition sortByPosition (s : MSSpectrum) : MSSpectrum :=
  select (sorted_order (peaks s)) s.

(** ** Discovery phase: working vectors *)

(** One accepted isotope pattern.  The routine does not store them: this
    is the history of the places where [++feature_number] is executed,
    kept so that statements about groups can be written down; nothing in
    the computation reads it. *)
Record Group := mkGroup { seed : nat; charge : Z; members : list nat }.

Record Discovery := mkDiscovery {
  mono_isotopic_peak : list Z;
  features : list Z;
  mono_iso_peak_intensity : list float;
  iso_peak_count : list nat;
  feature_number : Z;
  accepted : list Group
}.

(** The loop over the high-intensity seeds and the loop over all peaks
    are two copies of the same text that differ in one test. *)
Inductive Pass := HighIntensityPass | ExhaustivePass.

Section Deisotoper.
Context {K : Kernel}.
Variable P : Params.
Variable old_spectrum : MSSpectrum.

Definition peak (i : nat) : Peak1D := peaks old_spectrum !!! i.

Definition tolerance_dalton (current_mz : float) : float :=
  if fragment_unit_ppm P then ppmToMass (fragment_tolerance P) current_mz
  else fragment_tolerance P.

(** [has_precursor_data] and [precursor_mass] *)
Definition precursor_mass : option float :=
  match getPrecursors old_spectrum with
  | [pc] =>
      let precursor_charge := float_of_Z (precursorCharge pc) in
      Some (precursorMZ pc * precursor_charge
            - PROTON_MASS * precursor_charge)%float
  | _ => None
  end.

(** The [continue] of the charge loop *)
Definition pruned (current_peak : nat) (q : Z) : bool :=
  let current_mz := getMZ (peak current_peak) in
  match precursor_mass with
  | Some pm =>
      let current_theo_mass :=
        (current_mz * float_of_Z q - PROTON_MASS * float_of_Z q)%float in
      PrimFloat.ltb (pm + tolerance_dalton current_mz)%float current_theo_mass
  | None => false
  end.

Definition expected_mz (current_peak : nat) (q : Z) (i : nat) : float :=
  (getMZ (peak current_peak)
   + float_of_nat i * C13C12_MASSDIFF_U / float_of_Z q)%float.

Definition back (current_peak : nat) (extensions : list nat) : nat :=
  default current_peak (last extensions).

(** The three tests that stop the extension at a found peak [p] *)
Definition decreasing_violated (i p prev : nat) : bool :=
  use_decreasing_model P && (start_intensity_check P <=? i)
  && PrimFloat.ltb (getIntensity (peak prev)) (getIntensity (peak p)).
Definition ratio (p prev : nat) : float :=
  (getIntensity (peak p) / getIntensity (peak prev))%float.
Definition satellite (i p prev : nat) : bool :=
  (i =? 1) && PrimFloat.ltb 10 (ratio p prev).
Definition noise (pass : Pass) (i p prev : nat) : bool :=
  match pass with
  | HighIntensityPass => (i =? 1) && PrimFloat.ltb (ratio p prev) 0.01
  | ExhaustivePass => false
  end.

(** [for (unsigned int i = 1; i < max_isopeaks; ++i)]: [todo] is the
    number of iterations left, [max_isopeaks - i].  The result is
    [extensions], [iso_peak_count] and [has_min_isopeaks]. *)
Fixpoint extend (pass : Pass) (current_peak : nat) (q : Z)
    (todo i : nat) (extensions : list nat) (ipc : list nat)
  : list nat * list nat * bool :=
  match todo with
  | O => (extensions, ipc, true)
  | S todo' =>
      let tol := tolerance_dalton (getMZ (peak current_peak)) in
      match findNearest (peaks old_spectrum)
              (expected_mz current_peak q i) tol with
      | None => (extensions, ipc, min_isopeaks P <=? i)
      | Some p =>
          let prev := back current_peak extensions in
          if decreasing_violated i p prev
          then (extensions, ipc, min_isopeaks P <=? i)
          else if satellite i p prev
          then (extensions, ipc, min_isopeaks P <=? i)
          else if noise pass i p prev
          then (extensions, ipc, min_isopeaks P <=? i)
          else extend pass current_peak q todo' (S i) (extensions ++ [p])
                 (if annotate_iso_peak_count P
                  then <[current_peak := i + 1]> ipc else ipc)
      end
  end.

Definition run (pass : Pass) (current_peak : nat) (q : Z) (ipc : list nat)
  : list nat * list nat * bool :=
  extend pass current_peak q (max_isopeaks P - 1) 1 [current_peak] ipc.

(** The loop over [extensions] after [has_min_isopeaks] *)
Definition claim (fn : Z) (extensions : list nat) (f : list Z) : list Z :=
  foldl (fun f e => <[e := fn]> f) f extensions.
Definition add_up (current_peak : nat) (extensions : list nat)
    (m : list float) : list float :=
  if add_up_intensity P
  then foldl (fun m e =>
                <[current_peak :=
                    (m !!! current_peak + getIntensity (peak e))%float]> m)
             m (tail extensions)
  else m.

(** Body of [for (int q = max_charge; q >= min_charge; --q)] *)
Definition try_charge (pass : Pass) (current_peak : nat)
    (st : Discovery) (q : Z) : Discovery :=
  if (features st !!! current_peak =? -1)%Z then
    if pruned current_peak q then st
    else
      let '(extensions, ipc, has_min_isopeaks) :=
        run pass current_peak q (iso_peak_count st) in
      if has_min_isopeaks then
        mkDiscovery
          (<[current_peak := to_size_t q]> (mono_isotopic_peak st))
          (claim (feature_number st) extensions (features st))
          (add_up current_peak extensions (mono_iso_peak_intensity st))
          ipc
          (feature_number st + 1)%Z
          (accepted st ++ [mkGroup current_peak q extensions])
      else
        mkDiscovery (mono_isotopic_peak st) (features st)
          (mono_iso_peak_intensity st) ipc (feature_number st) (accepted st)
  else st.

(** [q = max_charge, max_charge - 1, ..., min_charge] *)
Definition charges : list Z :=
  map (fun k => (max_charge P - Z.of_nat k)%Z)
      (seq 0 (Z.to_nat (max_charge P - min_charge P + 1))).

Definition reset_intensity (current_peak : nat) (st : Discovery)
  : Discovery :=
  if add_up_intensity P then
    mkDiscovery (mono_isotopic_peak st) (features st)
      (<[current_peak := getIntensity (peak current_peak)]>
         (mono_iso_peak_intensity st))
      (iso_peak_count st) (feature_number st) (accepted st)
  else st.

(** Body of the loop over seeds (either pass) *)
Definition seed_step (pass : Pass) (st : Discovery) (current_peak : nat)
  : Discovery :=
  foldl (try_charge pass current_peak) (reset_intensity current_peak st)
        charges.

Definition size : nat := length (peaks old_spectrum).

Definition initial : Discovery :=
  mkDiscovery (replicate size 0%Z) (replicate size (-1)%Z)
    (replicate size 0%float) (replicate size 1) 0%Z [].

(** Indices retained by the WindowMower filter *)
Definition high_intensity_peaks : list nat :=
  List.filter (windowMowerKeeps (peaks old_spectrum)) (seq 0 size).

Definition seed_pass : Discovery :=
  foldl (seed_step HighIntensityPass) initial high_intensity_peaks.

Definition discover : Discovery :=
  foldl (seed_step ExhaustivePass) seed_pass (seq 0 size).

End Deisotoper.

(** ** Applying the result: annotation, rewriting and selection of peaks *)

Inductive Exception := IllegalArgument | Precondition.
Inductive Outcome := Returned | Thrown (e : Exception).

Definition preserve_low_mz_peaks_threshold : float := 154.0%float.

Section Apply.
Context {K : Kernel}.
Variable P : Params.
Variable d : Discovery.
Variables charge_index iso_peak_count_index : nat.

Definition annotate (on : bool) (index : nat) (v : Z) (spec : MSSpectrum)
  : MSSpectrum :=
  if on
  then with_arrays spec (alter (push_back v) index (getIntegerDataArrays spec))
  else spec.

Definition single_charged (z : Z) (pk : Peak1D) : Peak1D :=
  setMZ (getMZ pk * float_of_Z z - float_of_Z (z - 1) * PROTON_MASS_U)%float pk.

(** Body of the first loop over [i] after the discovery phase *)
Definition select_step (acc : MSSpectrum * list nat) (i : nat)
  : MSSpectrum * list nat :=
  let '(spec, select_idx) := acc in
  let z := mono_isotopic_peak d !!! i in
  let spec := annotate (annotate_charge P) charge_index (to_int z) spec in
  let spec := annotate (annotate_iso_peak_count P) iso_peak_count_index
                (to_int (Z.of_nat (iso_peak_count d !!! i))) spec in
  let spec :=
    if add_up_intensity P
    then with_peaks spec
           (alter (setIntensity (mono_iso_peak_intensity d !!! i)) i
                  (peaks spec))
    else spec in
  if negb (keep_only_deisotoped P) && (features d !!! i <? 0)%Z
  then (spec, select_idx ++ [i])
  else if (z =? 0)%Z then (spec, select_idx)
  else
    let spec :=
      if make_single_charged P
      then with_peaks spec (alter (single_charged z) i (peaks spec))
      else spec in
    (spec, select_idx ++ [i]).

(** [std::find(...) == select_idx.end()] followed by [push_back] *)
Definition push_if_absent (select_idx : list nat) (i : nat) : list nat :=
  if decide (i ∈ select_idx) then select_idx else select_idx ++ [i].

(** The loop that keeps the high-intensity peaks *)
Definition preserve_high (high : list nat) (select_idx : list nat)
  : list nat :=
  foldl push_if_absent select_idx high.

(** The loop that keeps the low m/z peaks, with its [break] *)
Fixpoint preserve_low (spec : MSSpectrum) (idx : list nat)
    (select_idx : list nat) : list nat :=
  match idx with
  | [] => select_idx
  | i :: rest =>
      if PrimFloat.ltb (getMZ (peaks spec !!! i))
                       preserve_low_mz_peaks_threshold
      then preserve_low spec rest (push_if_absent select_idx i)
      else select_idx
  end.
End Apply.

Section Entry.
Context {K : Kernel}.
Variable P : Params.

Definition illegal_isopeaks : bool :=
  (min_isopeaks P <? 2) || (max_isopeaks P <? 2)
  || (max_isopeaks P <? min_isopeaks P).

Definition reserve (on : bool) (name : string) (spec : MSSpectrum)
  : MSSpectrum :=
  if on
  then with_arrays spec (getIntegerDataArrays spec ++ [mkIDA name []])
  else spec.

(** The spectrum after the two annotation arrays have been reserved *)
Definition reserved (spec : MSSpectrum) : MSSpectrum :=
  reserve (annotate_iso_peak_count P) "iso_peak_count"
    (reserve (annotate_charge P) "charge" spec).

Definition charge_index_of (spec : MSSpectrum) : nat :=
  length (getIntegerDataArrays spec).
Definition iso_peak_count_index_of (spec : MSSpectrum) : nat :=
  length (getIntegerDataArrays (reserve (annotate_charge P) "charge" spec)).

(** Spectrum and [select_idx] after the first loop over [i] *)
Definition selected (spec : MSSpectrum) : MSSpectrum * list nat :=
  let spec' := reserved spec in
  foldl (select_step P (discover P spec')
           (charge_index_of spec) (iso_peak_count_index_of spec))
        (spec', []) (seq 0 (length (peaks spec))).

(** [select_idx] when [spec.select] is called *)
Definition final_select_idx (spec : MSSpectrum) : list nat :=
  let '(spec', select_idx) := selected spec in
  preserve_low spec' (seq 0 (length (peaks spec)))
    (preserve_high (high_intensity_peaks (reserved spec)) select_idx).

Definition deisotopeAndSingleCharge (spec : MSSpectrum)
  : Outcome * MSSpectrum :=
  if assertions && negb (isSorted spec) then (Thrown Precondition, spec)
  else if illegal_isopeaks then (Thrown IllegalArgument, spec)
  else
    match peaks spec with
    | [] => (Returned, reserved spec)
    | _ :: _ =>
        (Returned,
         sortByPosition (select (final_select_idx spec) (selected spec).1))
    end.
End Entry.

(** ** A concrete kernel *)

Module Model.

(** Modelled from the spec: MSSpectrum::findNearest is not among the
    sources; "given a sorted peak list and a target m/z with a tolerance
    window, returns the index of the closest peak within tolerance or
    none found". *)
Fixpoint closest (l : list Peak1D) (target : float) (i : nat)
    (best : nat) (best_dist : float) : nat :=
  match l with
  | [] => best
  | pk :: r =>
      let dist := PrimFloat.abs (getMZ pk - target)%float in
      if PrimFloat.ltb dist best_dist
      then closest r target (S i) i dist
      else closest r target (S i) best best_dist
  end.
Definition nearest (pks : list Peak1D) (mz tolerance : float)
  : option nat :=
  match pks with
  | [] => None
  | pk :: r =>
      let i := closest r mz 1 0 (PrimFloat.abs (getMZ pk - mz)%float) in
      let found_mz := getMZ (pks !!! i) in
      if PrimFloat.leb (mz - tolerance)%float found_mz
         && PrimFloat.leb found_mz (mz + tolerance)%float
      then Some i else None
  end.

(** Modelled from the spec: WindowMower::filterPeakSpectrum is not among
    the sources; "a sliding/jumping window of fixed width (4 m/z units)
    keeping the single most intense peak per window".  A window starts
    at the first peak that lies outside the previous one. *)
Fixpoint mow (l : list Peak1D) (i : nat) (window_start : float)
    (best : nat) (best_intensity : float) : list nat :=
  match l with
  | [] => [best]
  | pk :: r =>
      if PrimFloat.ltb (getMZ pk - window_start)%float 4.0%float
      then if PrimFloat.ltb best_intensity (getIntensity pk)
           then mow r (S i) window_start i (getIntensity pk)
           else mow r (S i) window_start best best_intensity
      else best :: mow r (S i) (getMZ pk) i (getIntensity pk)
  end.
Definition retained (pks : list Peak1D) : list nat :=
  match pks with
  | [] => []
  | pk :: r => mow r 1 (getMZ pk) 0 (getIntensity pk)
  end.
Definition keeps (pks : list Peak1D) (i : nat) : bool :=
  bool_decide (i ∈ retained pks).

(** Modelled from the spec: Math::ppmToMass is not among the sources;
    it "converts a relative (parts-per-million) tolerance into an
    absolute mass tolerance for a given m/z". *)
Definition ppm_to_mass (ppm mz_ref : float) : float :=
  (ppm / 1000000 * mz_ref)%float.

(** Modelled from the spec: Constants.h is not among the sources; the
    spec quotes the proton mass as 1.00728 and the isotope spacing as
    1.003 per charge, the values below are the unrounded ones. *)
#[global] Instance kernel : Kernel := {|
  findNearest := nearest;
  windowMowerKeeps := keeps;
  ppmToMass := ppm_to_mass;
  PROTON_MASS := 1.007276466771%float;
  PROTON_MASS_U := 1.007276466771%float;
  C13C12_MASSDIFF_U := 1.0033548378%float;
  assertions := true
|}.

End Model.

(** * Vocabulary of the properties *)

Section Vocabulary.
Context {K : Kernel}.
Variable P : Params.
Variable old_spectrum : MSSpectrum.

Abbreviation n := (size old_spectrum).

(** The isotope run found for seed [cp] at charge [q] *)
Definition extension (pass : Pass) (cp : nat) (q : Z) : list nat :=
  (run P old_spectrum pass cp q []).1.1.

(** A charge hypothesis is viable for a seed when it is not skipped by the
    precursor-mass test and its isotope run reaches [min_isopeaks]. *)
Definition viable (pass : Pass) (cp : nat) (q : Z) : bool :=
  negb (pruned P old_spectrum cp q)
  && (min_isopeaks P <=? length (extension pass cp q)).

(** The isotope-count range that passes the argument test *)
Definition valid_isopeaks : Prop :=
  2 <= min_isopeaks P /\ min_isopeaks P <= max_isopeaks P.

(** The seeds of the accepted groups, listed in the order of acceptance,
    are fresh: no seed occurs in a group accepted before it. *)
Inductive fresh_seeds : list Group -> Prop :=
| fresh_nil : fresh_seeds []
| fresh_snoc log g :
    fresh_seeds log ->
    (forall g', g' ∈ log -> seed g ∉ members g') ->
    fresh_seeds (log ++ [g]).

(** What the working vectors say about an accepted group *)
Record group_ok (st : Discovery) (g : Group) : Prop := {
  ok_seed : seed g < n;
  ok_head : exists rest, members g = seed g :: rest;
  ok_claimed :
    forall p, p ∈ members g -> p < n -> features st !!! p <> (-1)%Z;
  ok_charge : mono_isotopic_peak st !! seed g = Some (to_size_t (charge g));
  ok_length :
    valid_isopeaks ->
    min_isopeaks P <= length (members g) <= max_isopeaks P;
  ok_count :
    valid_isopeaks -> annotate_iso_peak_count P = true ->
    iso_peak_count st !! seed g = Some (length (members g))
}.

Record consistent (st : Discovery) : Prop := {
  len_features : length (features st) = n;
  len_mono : length (mono_isotopic_peak st) = n;
  len_count : length (iso_peak_count st) = n;
  feature_number_nonneg : (0 <= feature_number st)%Z;
  groups_ok : Forall (group_ok st) (accepted st);
  groups_fresh : fresh_seeds (accepted st)
}.

(** The seed loop body on seed [cp] ends with charge [q] recorded: [q] is
    the highest viable charge of the range, and the charges below it are
    not tried (the loop has the effect of its iterations down to [q]). *)
Definition accepted_at (pass : Pass) (st : Discovery) (cp : nat) (q : Z)
  : Prop :=
  let st' := seed_step P old_spectrum pass st cp in
  (min_charge P <= q <= max_charge P)%Z
  /\ viable pass cp q = true
  /\ (forall q', (q < q' <= max_charge P)%Z -> viable pass cp q' = false)
  /\ min_isopeaks P <= length (extension pass cp q)
  /\ mono_isotopic_peak st' !! cp = Some (to_size_t q)
  /\ accepted st' = accepted st ++ [mkGroup cp q (extension pass cp q)]
  /\ exists higher lower,
       charges P = higher ++ q :: lower
       /\ Forall (fun q' => (q' < q)%Z) lower
       /\ st' = foldl (try_charge P old_spectrum pass cp)
                  (reset_intensity P old_spectrum cp st) (higher ++ [q]).

(** The seed loop body on seed [cp] ends with no charge recorded. *)
Definition all_rejected (pass : Pass) (st : Discovery) (cp : nat) : Prop :=
  let st' := seed_step P old_spectrum pass st cp in
  (forall q, (min_charge P <= q <= max_charge P)%Z ->
     viable pass cp q = false)
  /\ mono_isotopic_peak st' = mono_isotopic_peak st
  /\ features st' = features st
  /\ accepted st' = accepted st.

(** A state whose accumulated intensities agree with [m] off the seed *)
Definition intensity_frame (cp : nat) (m : list float) (st : Discovery)
  : Prop :=
  length (mono_iso_peak_intensity st) = length m
  /\ forall j, j <> cp -> mono_iso_peak_intensity st !! j = m !! j.

(** The loop over all peaks, cut after its first [k] iterations *)
Definition exhaustive_upto (k : nat) : Discovery :=
  foldl (seed_step P old_spectrum ExhaustivePass)
        (seed_pass P old_spectrum) (seq 0 k).

(** Sum of the intensities along a run, in the order the routine adds
    them: the seed first, then each further entry of [extensions]. *)
Definition run_intensity (cp : nat) (ext : list nat) : float :=
  foldl (fun acc e => (acc + getIntensity (peak old_spectrum e))%float)
        (getIntensity (peak old_spectrum cp)) (tail ext).

(** What the charge loop leaves at an unclaimed seed whose accumulated
    intensity has just been reset *)
Definition seed_settled (st0 : Discovery) (cp : nat) (st : Discovery)
  : Prop :=
  (features st !!! cp = (-1)%Z
   /\ accepted st = accepted st0
   /\ mono_iso_peak_intensity st !! cp
      = Some (getIntensity (peak old_spectrum cp)))
  \/ (exists q ext,
        accepted st = accepted st0 ++ [mkGroup cp q ext]
        /\ features st !!! cp <> (-1)%Z
        /\ mono_iso_peak_intensity st !! cp = Some (run_intensity cp ext)).

End Vocabulary.

Section AnnotationVocabulary.
Variable P : Params.
Variable d : Discovery.
Variables charge_index iso_peak_count_index : nat.

(** Values appended to the integer data array at position [idx] by the
    iteration [i] of the first selection loop *)
Definition pushed (idx i : nat) : list Z :=
  (if annotate_charge P && (idx =? charge_index)
   then [to_int (mono_isotopic_peak d !!! i)] else [])
  ++ (if annotate_iso_peak_count P && (idx =? iso_peak_count_index)
      then [to_int (Z.of_nat (iso_peak_count d !!! i))] else []).

Definition extended_by (vs : list Z) (a : IntegerDataArray)
  : IntegerDataArray :=
  mkIDA (getName a) (ida_data a ++ vs).

End AnnotationVocabulary.

(** The reading of "each peak index is claimed into at most one isotope
    group" on the history of accepted groups, and its failure. *)
Definition at_most_one_group (log : list Group) : Prop :=
  forall i j gi gj p,
    log !! i = Some gi -> log !! j = Some gj ->
    p ∈ members gi -> p ∈ members gj -> i = j.

Definition claimed_twice (log : list Group) : Prop :=
  exists i j gi gj p,
    log !! i = Some gi /\ log !! j = Some gj /\
    p ∈ members gi /\ p ∈ members gj /\ i <> j.

(** The index list handed to [select] holds distinct indices below [n]. *)
Definition distinct_below (n : nat) (sel : list nat) : Prop :=
  NoDup sel /\ Forall (fun i => i < n) sel.

(** ** Concrete spectra used to exercise the routine *)

Module Scenario.
Import Model.
Local Open Scope float_scope.

Definition spectrum (pks : list (float * float)) : MSSpectrum :=
  mkSpectrum (map (fun '(m, i) => mkPeak m i) pks) [] [].

(** Two seeds, 100.0 and 100.02, that both find the peak at 101.01 within
    0.05 Da of their first isotope position at charge 1. *)
Definition overlap : MSSpectrum :=
  spectrum [(100.0, 1000); (100.02, 800); (101.01, 500)].
Definition overlap_params : Params :=
  mkParams 0.05 false 1 1 false 2 2 false true true true 2 false.
Definition overlap_sum_params : Params :=
  mkParams 0.05 false 1 1 false 2 2 false true true true 2 true.

(** A doublet at charge 1 followed by a far peak that closes the first
    4 m/z window. *)
Definition doublet : MSSpectrum :=
  spectrum [(100.0, 1000); (101.0033548378, 500); (110.0, 10)].
Definition doublet_params : Params :=
  mkParams 0.01 false 1 1 false 2 2 false true true true 2 true.

(** A doublet at charge 2 with a small unrelated peak next to it, all
    below m/z 154. *)
Definition low_mass : MSSpectrum :=
  spectrum [(100.0, 1000); (100.5, 500); (101.5, 5); (110.0, 10)].
Definition low_mass_params : Params :=
  mkParams 0.01 false 2 2 true 2 2 true false false true 2 false.

(** The three-peak scenario of the specification *)
Definition three_peaks : MSSpectrum :=
  spectrum [(100.0, 1000); (100.50, 50); (101.0, 900)].
Definition three_peaks_params (keep_only_deisotoped make_single_charged
    annotate_charge annotate_iso_peak_count use_decreasing_model : bool)
    (start_intensity_check : nat) (add_up_intensity : bool) : Params :=
  mkParams 0.05 false 1 1 keep_only_deisotoped 2 3 make_single_charged
    annotate_charge annotate_iso_peak_count use_decreasing_model
    start_intensity_check add_up_intensity.

(** A seed with a first isotope peak of half a percent of its intensity *)
Definition faint : MSSpectrum :=
  spectrum [(100.0, 1000); (101.0033548378, 5)].
Definition faint_params : Params :=
  mkParams 0.01 false 1 1 false 2 2 false true true true 2 false.

(** Two peaks too far apart for any isotope spacing *)
Definition apart : MSSpectrum :=
  spectrum [(100.0, 1000); (110.0, 10)].

(** A charge range with max_charge below min_charge *)
Definition empty_range_params : Params :=
  mkParams 0.05 false 2 1 false 2 2 false true true true 2 false.

End Scenario.


(** * Vocabulary: group history, selection, rewriting and runs *)

Section Tracking.
Variable P : Params.
Variable old_spectrum : MSSpectrum.

(** Peak [i] is claimed by no accepted group. *)
Definition unclaimed (log : list Group) (i : nat) : Prop :=
  forall g, g ∈ log -> i ∉ members g.

(** Group number [k] of the history is the last one that claimed peak
    [i]. *)
Definition last_claimed_by (log : list Group) (i k : nat) : Prop :=
  exists g, log !! k = Some g /\ i ∈ members g
    /\ forall k' g', k < k' -> log !! k' = Some g' -> i ∉ members g'.

(** How the working vectors follow the history of accepted groups *)
Record tracked (st : Discovery) : Prop := {
  tr_number : feature_number st = Z.of_nat (length (accepted st));
  tr_features :
    forall i, i < size old_spectrum ->
      (features st !!! i = (-1)%Z /\ unclaimed (accepted st) i)
      \/ (exists k, features st !!! i = Z.of_nat k
                    /\ last_claimed_by (accepted st) i k);
  tr_mono :
    forall i, i < size old_spectrum ->
      mono_isotopic_peak st !!! i = 0%Z
      \/ (exists g, g ∈ accepted st /\ seed g = i
                    /\ mono_isotopic_peak st !!! i = to_size_t (charge g));
  tr_charges :
    forall g, g ∈ accepted st ->
      (min_charge P <= charge g <= max_charge P)%Z;
  tr_count :
    Forall (fun c => 1 <= c <= Nat.max 1 (max_isopeaks P))
           (iso_peak_count st)
}.

End Tracking.


Section SelectionVocabulary.
Variable P : Params.
Variable d : Discovery.

(** The test of the first selection loop: peak [i] is pushed to
    [select_idx] as an unassigned peak or as a peak with a charge. *)
Definition kept_by_loop (i : nat) : bool :=
  (negb (keep_only_deisotoped P) && (features d !!! i <? 0)%Z)
  || negb (mono_isotopic_peak d !!! i =? 0)%Z.

End SelectionVocabulary.


Section RewritingVocabulary.
Context {K : Kernel}.
Variable P : Params.
Variable d : Discovery.

(** What iteration [i] of the first selection loop makes of peak [i] *)
Definition rewritten (i : nat) (pk : Peak1D) : Peak1D :=
  let z := mono_isotopic_peak d !!! i in
  let pk :=
    if add_up_intensity P
    then setIntensity (mono_iso_peak_intensity d !!! i) pk else pk in
  if negb (keep_only_deisotoped P) && (features d !!! i <? 0)%Z then pk
  else if (z =? 0)%Z then pk
  else if make_single_charged P then single_charged z pk else pk.

End RewritingVocabulary.

Section RunVocabulary.
Context {K : Kernel}.
Variable P : Params.
Variable old_spectrum : MSSpectrum.

(** Peak [p] is taken as isotope peak number [i] of the run of seed [cp]
    at charge [q], after the peak [prev]: [findNearest] returns it for
    the expected position, and none of the tests of the pass stops the
    extension. *)
Definition taken (pass : Pass) (cp : nat) (q : Z) (i p prev : nat)
  : Prop :=
  findNearest (peaks old_spectrum) (expected_mz old_spectrum cp q i)
    (tolerance_dalton P (getMZ (peak old_spectrum cp))) = Some p
  /\ decreasing_violated P old_spectrum i p prev = false
  /\ satellite old_spectrum i p prev = false
  /\ noise old_spectrum pass i p prev = false.

(** Every entry of a run after its first is taken after its predecessor. *)
Definition chained (pass : Pass) (cp : nat) (q : Z) (ext : list nat)
  : Prop :=
  forall i p prev,
    ext !! S i = Some p -> ext !! i = Some prev ->
    taken pass cp q (S i) p prev.

(** An accepted group is the run of its seed at its charge in one of the
    two passes, for a charge that the precursor-mass test lets through. *)
Definition sound (g : Group) : Prop :=
  pruned P old_spectrum (seed g) (charge g) = false
  /\ exists pass,
       members g = extension P old_spectrum pass (seed g) (charge g).

End RunVocabulary.

(** * Identification::SearchParameters (Identification.h)

    The search parameters of a database search and their comparison
    operators, which are defined in the header. *)

Module Identification.

Inductive PeakMassType := MONOISOTOPIC | AVERAGE.
Inductive DigestionEnzyme := TRYPSIN | NO_ENZYME | UNKNOWN_ENZYME.

Record SearchParameters := mkSearchParameters {
  db : string;
  db_version : string;
  taxonomy : string;
  charges : string;
  mass_type : PeakMassType;
  fixed_modifications : list string;
  variable_modifications : list string;
  enzyme : DigestionEnzyme;
  missed_cleavages : N;
  peak_mass_tolerance : float;
  precursor_tolerance : float
}.

(** The default constructor *)
Definition SearchParameters_default : SearchParameters :=
  mkSearchParameters EmptyString EmptyString EmptyString EmptyString
    MONOISOTOPIC [] [] UNKNOWN_ENZYME 0%N 0%float 0%float.

(** [==] on the member types: enumerators, [std::vector<String>] (same
    size and equal elements) and [double] (false on a NaN). *)
Definition PeakMassType_eqb (a b : PeakMassType) : bool :=
  match a, b with
  | MONOISOTOPIC, MONOISOTOPIC | AVERAGE, AVERAGE => true
  | _, _ => false
  end.
Definition DigestionEnzyme_eqb (a b : DigestionEnzyme) : bool :=
  match a, b with
  | TRYPSIN, TRYPSIN | NO_ENZYME, NO_ENZYME
  | UNKNOWN_ENZYME, UNKNOWN_ENZYME => true
  | _, _ => false
  end.
Fixpoint vector_eqb (a b : list string) : bool :=
  match a, b with
  | [], [] => true
  | x :: a', y :: b' => String.eqb x y && vector_eqb a' b'
  | _, _ => false
  end.

(** [bool operator == (const SearchParameters& rhs) const]: the members
    after [db_version] are compared with themselves, as in the source. *)
Definition operator_eq (this rhs : SearchParameters) : bool :=
  String.eqb (db this) (db rhs)
  && String.eqb (db_version this) (db_version rhs)
  && String.eqb (taxonomy this) (taxonomy this)
  && String.eqb (charges this) (charges this)
  && PeakMassType_eqb (mass_type this) (mass_type this)
  && vector_eqb (fixed_modifications this) (fixed_modifications this)
  && vector_eqb (variable_modifications this) (variable_modifications this)
  && DigestionEnzyme_eqb (enzyme this) (enzyme this)
  && N.eqb (missed_cleavages this) (missed_cleavages this)
  && PrimFloat.eqb (peak_mass_tolerance this) (peak_mass_tolerance this)
  && PrimFloat.eqb (precursor_tolerance this) (precursor_tolerance this).

(** [bool operator != (const SearchParameters& rhs) const] *)
Definition operator_ne (this rhs : SearchParameters) : bool :=
  negb (operator_eq this rhs).

End Identification.

(** * common_functions.php: character classes and tokenize

    A PHP string is a sequence of bytes; the character predicates are
    modelled on the one-byte strings [$line[$i]] that [tokenize] passes
    to them. *)

Module CommonFunctions.

Definition ord (char : ascii) : nat := nat_of_ascii char.

Definition isAlpha (char : ascii) : bool :=
  let c := ord char in
  ((64 <=? c) && (c <=? 90)) || ((97 <=? c) && (c <=? 122)).

Definition isSpace (char : ascii) : bool :=
  Ascii.eqb char " " || Ascii.eqb char "010" || Ascii.eqb char "009".

(** [('0' <= $char) && ($char <= '9')]: on one-byte strings the
    comparison of PHP orders by the byte. *)
Definition isDigit (char : ascii) : bool :=
  (ord "0" <=? ord char) && (ord char <=? ord "9").

Definition isAlnum (char : ascii) : bool := isAlpha char || isDigit char.

Definition isIdentifierChar (char : ascii) : bool :=
  isAlnum char || Ascii.eqb char "_".

(** [substr($line, $start, $length)] for a start inside the string and a
    length that is not negative *)
Definition substr (line : list ascii) (start length : nat) : list ascii :=
  take length (drop start line).

(** The variables of the loop of [tokenize]; [state] is 0 in the start
    state and 1 inside an identifier. *)
Record Tokenizer := mkTokenizer {
  result : list (list ascii);
  start : nat;
  state : nat
}.

(** Body of [for ($i = 0; $i != strlen($line); $i++)] *)
Definition tokenize_step (line : list ascii) (t : Tokenizer) (i : nat)
  : Tokenizer :=
  match line !! i with
  | None => t
  | Some char =>
      if state t =? 0 then
        if isIdentifierChar char then mkTokenizer (result t) i 1
        else if negb (isSpace char)
        then mkTokenizer (result t ++ [[char]]) (start t) (state t)
        else t
      else
        if negb (isIdentifierChar char) then
          let result' := result t ++ [substr line (start t) (i - start t)] in
          if negb (isSpace char)
          then mkTokenizer (result' ++ [[char]]) (start t) 0
          else mkTokenizer result' (start t) 0
        else t
  end.

Definition tokenize_upto (line : list ascii) (k : nat) : Tokenizer :=
  foldl (tokenize_step line) (mkTokenizer [] 0 0) (seq 0 k).

Definition tokenize (line : list ascii) : list (list ascii) :=
  result (tokenize_upto line (length line)).

(** The identifier that the loop is reading after [k] characters *)
Definition pending (line : list ascii) (k : nat) (t : Tokenizer)
  : list ascii :=
  if state t =? 0 then [] else substr line (start t) (k - start t).

(** The two kinds of tokens *)
Definition identifier_token (tok : list ascii) : Prop :=
  tok <> [] /\ Forall (fun c => isIdentifierChar c = true) tok.
Definition operator_token (tok : list ascii) : Prop :=
  exists c, tok = [c] /\ isIdentifierChar c = false /\ isSpace c = false.

(** What holds after [k] iterations of the loop *)
Record tokenized (line : list ascii) (k : nat) (t : Tokenizer) : Prop := {
  tk_state : state t = 0 \/ (state t = 1 /\ start t < k);
  tk_pending : Forall (fun c => isIdentifierChar c = true) (pending line k t);
  tk_tokens :
    Forall (fun tok => identifier_token tok \/ operator_token tok)
           (result t);
  tk_cover :
    concat (result t) ++ pending line k t
    = List.filter (fun c => negb (isSpace c)) (take k line)
}.

End CommonFunctions.

(** * Properties *)

(** ** Generic facts about loops and index lists *)

Lemma foldl_invariant {A B} (I : A -> Prop) (f : A -> B -> A) (l : list B) :
  forall a, I a -> (forall a x, x ∈ l -> I a -> I (f a x)) -> I (foldl f a l).
Proof.
  induction l as [|x l IH]; intros a Ha Hstep; simpl; [done|].
  apply IH.
  - apply Hstep; [left | done].
  - intros a' y Hy. apply Hstep. by right.
Qed.

Lemma foldl_snoc {A B} (f : A -> B -> A) (l : list B) (x : B) (a : A) :
  foldl f a (l ++ [x]) = f (foldl f a l) x.
Proof. by rewrite foldl_app. Qed.

Lemma gather_length {A} (l : list A) (idx : list nat) :
  length (gather l idx) <= length idx.
Proof.
  induction idx as [|i idx IH]; simpl; [lia|].
  destruct (l !! i); simpl; lia.
Qed.

Lemma gather_in_range {A} (l : list A) (idx : list nat) :
  Forall (fun i => i < length l) idx -> length (gather l idx) = length idx.
Proof.
  induction 1 as [|i idx Hi _ IH]; simpl; [done|].
  destruct (lookup_lt_is_Some_2 l i Hi) as [x ->]. simpl. by rewrite IH.
Qed.

Lemma insert_by_mz_length pks i sorted :
  length (insert_by_mz pks i sorted) = S (length sorted).
Proof.
  induction sorted as [|j r IH]; simpl; [done|].
  destruct (PrimFloat.ltb _ _); simpl; [done | by rewrite IH].
Qed.

Lemma sorted_order_length pks : length (sorted_order pks) = length pks.
Proof.
  unfold sorted_order.
  assert (H : forall l, length (foldr (insert_by_mz pks) [] l) = length l).
  { induction l as [|i l IH]; simpl; [done|].
    by rewrite insert_by_mz_length, IH. }
  by rewrite H, length_seq.
Qed.

Lemma select_length idx s : length (peaks (select idx s)) <= length idx.
Proof. apply gather_length. Qed.

Lemma sortByPosition_length s :
  length (peaks (sortByPosition s)) <= length (peaks s).
Proof.
  unfold sortByPosition.
  etrans; [apply select_length|]. by rewrite sorted_order_length.
Qed.

(** ** The extension loop *)

Section ExtensionFacts.
Context {K : Kernel}.
Variable P : Params.
Variable old_spectrum : MSSpectrum.

Abbreviation extend := (extend P old_spectrum).
Abbreviation run := (run P old_spectrum).
Abbreviation extension := (extension P old_spectrum).

(** What one call of the loop guarantees, whatever [findNearest]
    answers: the run grows by at most one peak per iteration, the flag
    tells whether it reached [min_isopeaks] unless the loop ran to its
    end, and [iso_peak_count] is touched at the seed only. *)
Lemma extend_spec pass cp q todo :
  forall i ext ipc ext' ipc' ok,
    extend pass cp q todo i ext ipc = (ext', ipc', ok) ->
    length ext = i ->
    length ipc' = length ipc
    /\ ext `prefix_of` ext'
    /\ length ext' <= i + todo
    /\ (ok = true -> min_isopeaks P <= length ext' \/ length ext' = i + todo)
    /\ (ok = false -> length ext' < min_isopeaks P)
    /\ (forall j, j <> cp -> ipc' !! j = ipc !! j)
    /\ (length ext' = i -> ipc' = ipc)
    /\ (annotate_iso_peak_count P = true -> cp < length ipc ->
        i < length ext' -> ipc' !! cp = Some (length ext')).
Proof.
  induction todo as [|todo IH]; intros i ext ipc ext' ipc' ok Hrun Hlen;
    simpl in Hrun.
  { injection Hrun as <- <- <-. repeat split; auto; lia. }
  assert (Hstop : forall b, (ext, ipc, (min_isopeaks P <=? i)) = (ext', ipc', b) ->
    length ipc' = length ipc
    /\ ext `prefix_of` ext'
    /\ length ext' <= i + S todo
    /\ (b = true -> min_isopeaks P <= length ext' \/ length ext' = i + S todo)
    /\ (b = false -> length ext' < min_isopeaks P)
    /\ (forall j, j <> cp -> ipc' !! j = ipc !! j)
    /\ (length ext' = i -> ipc' = ipc)
    /\ (annotate_iso_peak_count P = true -> cp < length ipc ->
        i < length ext' -> ipc' !! cp = Some (length ext'))).
  { intros b Hb. injection Hb as <- <- <-. repeat split; auto; try lia.
    - intros Hle. left. apply Nat.leb_le in Hle. lia.
    - intros Hle. apply Nat.leb_gt in Hle. lia. }
  destruct (findNearest _ _ _) as [p|]; [|by apply Hstop].
  destruct (decreasing_violated _ _ _ _ _); [by apply Hstop|].
  destruct (satellite _ _ _ _); [by apply Hstop|].
  destruct (noise _ _ _ _ _); [by apply Hstop|].
  apply IH in Hrun; [|rewrite length_app; simpl; lia].
  destruct Hrun as (Hl & Hpre & Hub & Hok & Hko & Hoff & Hsame & Hrec).
  assert (Hgrow : S i <= length ext').
  { apply prefix_length in Hpre. rewrite length_app in Hpre.
    simpl in Hpre. lia. }
  assert (Hl' : length (if annotate_iso_peak_count P
                        then <[cp := i + 1]> ipc else ipc) = length ipc).
  { destruct (annotate_iso_peak_count P); [apply length_insert | done]. }
  split; [congruence|].
  split; [etrans; [by apply prefix_app_r|]; done|].
  split; [lia|].
  split; [intros Ht; destruct (Hok Ht); [by left | right; lia]|].
  split; [done|].
  split.
  { intros j Hj. rewrite Hoff by done.
    destruct (annotate_iso_peak_count P); [|done].
    by apply list_lookup_insert_ne. }
  split; [lia|].
  intros Hann Hcp _.
  destruct (decide (length ext' = S i)) as [He|He].
  - rewrite (Hsame He), Hann, He.
    replace (i + 1) with (S i) by lia. by apply list_lookup_insert_eq.
  - apply Hrec; [done| |lia]. by rewrite Hl'.
Qed.

(** The run and its flag do not depend on [iso_peak_count]. *)
Lemma extend_members pass cp q todo :
  forall i ext ipc1 ipc2,
    (extend pass cp q todo i ext ipc1).1.1
    = (extend pass cp q todo i ext ipc2).1.1
    /\ (extend pass cp q todo i ext ipc1).2
       = (extend pass cp q todo i ext ipc2).2.
Proof.
  induction todo as [|todo IH]; intros i ext ipc1 ipc2; simpl; [done|].
  destruct (findNearest _ _ _) as [p|]; [|done].
  destruct (decreasing_violated _ _ _ _ _); [done|].
  destruct (satellite _ _ _ _); [done|].
  destruct (noise _ _ _ _ _); [done|].
  apply IH.
Qed.

Lemma run_members pass cp q ipc :
  (run pass cp q ipc).1.1 = extension pass cp q.
Proof. apply extend_members. Qed.

Lemma run_spec pass cp q ipc ext' ipc' ok :
  run pass cp q ipc = (ext', ipc', ok) ->
  ext' = extension pass cp q
  /\ length ipc' = length ipc
  /\ (exists rest, ext' = cp :: rest)
  /\ (forall j, j <> cp -> ipc' !! j = ipc !! j)
  /\ (min_isopeaks P <= max_isopeaks P -> 1 <= max_isopeaks P ->
      ok = (min_isopeaks P <=? length ext')
      /\ length ext' <= max_isopeaks P)
  /\ (annotate_iso_peak_count P = true -> cp < length ipc ->
      2 <= length ext' -> ipc' !! cp = Some (length ext')).
Proof.
  intros Hrun.
  split; [by rewrite <- (run_members pass cp q ipc), Hrun|].
  apply extend_spec in Hrun; [|done].
  destruct Hrun as (Hl & [rest ->] & Hub & Hok & Hko & Hoff & _ & Hrec).
  split; [done|]. split; [by exists rest|]. split; [done|].
  split; [|intros; apply Hrec; auto; lia].
  intros Hmm Hmax. split; [|lia].
  destruct ok.
  - symmetry. apply Nat.leb_le. destruct (Hok eq_refl); lia.
  - symmetry. apply Nat.leb_gt. by apply Hko.
Qed.

Lemma extension_head pass cp q :
  exists rest, extension pass cp q = cp :: rest.
Proof.
  unfold extension.
  destruct (run pass cp q []) as [[ext ipc] ok] eqn:Hrun.
  by apply run_spec in Hrun as (_ & _ & Hhead & _).
Qed.

End ExtensionFacts.

(** ** The discovery phase keeps its working vectors consistent *)

Lemma fresh_seeds_lookup log :
  fresh_seeds log ->
  forall i j gi gj,
    log !! i = Some gi -> log !! j = Some gj -> i < j ->
    seed gj ∉ members gi.
Proof.
  induction 1 as [|log g _ IH Hg]; intros i j gi gj Hi Hj Hij.
  { by rewrite lookup_nil in Hi. }
  apply lookup_snoc_Some in Hj as [[Hjl Hj]|[-> <-]].
  - apply lookup_snoc_Some in Hi as [[_ Hi]|[-> _]]; [|lia].
    by apply (IH i j).
  - apply lookup_snoc_Some in Hi as [[_ Hi]|[-> _]]; [|lia].
    apply Hg. apply list_elem_of_lookup. by exists i.
Qed.

Section DiscoveryFacts.
Context {K : Kernel}.
Variable P : Params.
Variable old_spectrum : MSSpectrum.

Abbreviation n := (size old_spectrum).
Abbreviation consistent := (consistent P old_spectrum).

Lemma claim_length fn ext f : length (claim fn ext f) = length f.
Proof.
  unfold claim. revert f.
  induction ext as [|e ext IH]; intros f; simpl; [done|].
  by rewrite IH, length_insert.
Qed.

Lemma claim_snoc fn ext e f :
  claim fn (ext ++ [e]) f = <[e := fn]> (claim fn ext f).
Proof. unfold claim. by rewrite foldl_snoc. Qed.

Lemma claim_lookup_in fn ext f j :
  j ∈ ext -> j < length f -> claim fn ext f !!! j = fn.
Proof.
  revert f. induction ext as [|e ext IH] using rev_ind; intros f Hj Hlt.
  { by apply not_elem_of_nil in Hj. }
  rewrite claim_snoc.
  destruct (decide (e = j)) as [->|Hne].
  - apply list_lookup_total_insert_eq. by rewrite claim_length.
  - rewrite list_lookup_total_insert_ne by done.
    apply IH; [|done].
    apply elem_of_app in Hj as [Hj|Hj]; [done|].
    apply list_elem_of_singleton in Hj. congruence.
Qed.

Lemma claim_lookup_notin fn ext f j :
  j ∉ ext -> claim fn ext f !!! j = f !!! j.
Proof.
  revert f. induction ext as [|e ext IH] using rev_ind; intros f Hj; [done|].
  rewrite claim_snoc, list_lookup_total_insert_ne.
  - apply IH. intros Hin. apply Hj, elem_of_app. by left.
  - intros ->. apply Hj, elem_of_app. right. by apply list_elem_of_singleton.
Qed.

Lemma claim_keeps_claimed fn ext f j :
  (0 <= fn)%Z -> f !!! j <> (-1)%Z -> claim fn ext f !!! j <> (-1)%Z.
Proof.
  intros Hfn Hj.
  destruct (decide (j ∈ ext)) as [Hin|Hout].
  - destruct (decide (j < length f)) as [Hlt|Hge].
    + rewrite claim_lookup_in by done. lia.
    + rewrite list_lookup_total_alt, lookup_ge_None_2
        by (rewrite claim_length; lia).
      rewrite list_lookup_total_alt, lookup_ge_None_2 in Hj by lia. done.
  - by rewrite claim_lookup_notin.
Qed.

(** A claimed seed is left alone: the test [features[current_peak] == -1]
    fails for every remaining charge. *)
Lemma try_charge_claimed pass cp st q :
  features st !!! cp <> (-1)%Z -> try_charge P old_spectrum pass cp st q = st.
Proof.
  intros H. unfold try_charge.
  destruct (features st !!! cp =? -1)%Z eqn:E; [|done].
  apply Z.eqb_eq in E. done.
Qed.

Lemma charge_loop_claimed pass cp qs st :
  features st !!! cp <> (-1)%Z ->
  foldl (try_charge P old_spectrum pass cp) st qs = st.
Proof.
  intros H. induction qs as [|q qs IH]; simpl; [done|].
  by rewrite try_charge_claimed.
Qed.

(** An unclaimed seed is the seed of no accepted group. *)
Lemma unclaimed_not_member st cp g :
  consistent st -> cp < n -> features st !!! cp = (-1)%Z ->
  g ∈ accepted st -> cp ∉ members g.
Proof.
  intros Hc Hcp Hun Hg Hin.
  destruct Hc as [_ _ _ _ Hok _].
  rewrite Forall_forall in Hok.
  by apply (ok_claimed _ _ _ _ (Hok g Hg) cp Hin Hcp).
Qed.

Lemma unclaimed_not_seed st cp g :
  consistent st -> cp < n -> features st !!! cp = (-1)%Z ->
  g ∈ accepted st -> seed g <> cp.
Proof.
  intros Hc Hcp Hun Hg <-.
  apply (unclaimed_not_member st (seed g) g); try done.
  destruct Hc as [_ _ _ _ Hok _].
  rewrite Forall_forall in Hok.
  destruct (ok_head _ _ _ _ (Hok g Hg)) as [rest ->]. left.
Qed.

Lemma try_charge_consistent pass cp st q :
  cp < n -> consistent st ->
  consistent (try_charge P old_spectrum pass cp st q).
Proof.
  intros Hcp Hc. unfold try_charge.
  destruct (features st !!! cp =? -1)%Z eqn:Hun; [|done].
  apply Z.eqb_eq in Hun.
  destruct (pruned _ _ _ _); [done|].
  destruct (run _ _ _ _ _ _) as [[ext ipc] ok] eqn:Hrun.
  apply run_spec in Hrun.
  destruct Hrun as (Hext & Hlen & [rest Hhead] & Hoff & Hflag & Hrec).
  pose proof Hc as [Hlf Hlm Hlc Hfn Hok Hfresh].
  rewrite Forall_forall in Hok.
  assert (Hseed : forall g, g ∈ accepted st -> seed g <> cp).
  { intros g Hg. by apply (unclaimed_not_seed st). }
  destruct ok.
  - (* the hypothesis is accepted *)
    constructor; simpl.
    + by rewrite claim_length.
    + by rewrite length_insert.
    + congruence.
    + lia.
    + apply Forall_app. split.
      * apply Forall_forall. intros g Hg.
        destruct (Hok g Hg) as [? ? Hcl Hch Hl Hcn].
        constructor; simpl; try done.
        -- intros p Hp Hpn. apply claim_keeps_claimed; auto.
        -- rewrite list_lookup_insert_ne; [done|]. intros E. by apply (Hseed g).
        -- intros Hv Ha. rewrite Hoff; [by apply Hcn|]. by apply Hseed.
      * apply Forall_singleton.
        constructor; simpl.
        -- done.
        -- by exists rest.
        -- intros p Hp Hpn. rewrite claim_lookup_in; [lia|done|lia].
        -- apply list_lookup_insert_eq. lia.
        -- intros [Hmin Hmm]. destruct Hflag as [Hf Hub]; [done|lia|].
           symmetry in Hf. apply Nat.leb_le in Hf. lia.
        -- intros [Hmin Hmm] Ha. destruct Hflag as [Hf Hub]; [done|lia|].
           symmetry in Hf. apply Nat.leb_le in Hf.
           apply Hrec; [done|lia|lia].
    + constructor; [done|]. simpl.
      intros g Hg. by apply (unclaimed_not_member st).
  - (* the hypothesis is rejected: only iso_peak_count[cp] may change *)
    constructor; simpl; try done; [congruence|].
    apply Forall_forall. intros g Hg.
    destruct (Hok g Hg) as [? ? Hcl Hch Hl Hcn].
    constructor; simpl; try done.
    intros Hv Ha. rewrite Hoff; [by apply Hcn|]. by apply Hseed.
Qed.

Lemma reset_intensity_consistent cp st :
  consistent st -> consistent (reset_intensity P old_spectrum cp st).
Proof.
  intros Hc. unfold reset_intensity.
  destruct (add_up_intensity P); [|done].
  destruct Hc as [? ? ? ? Hok ?].
  constructor; simpl; try done.
  eapply Forall_impl; [exact Hok|].
  intros g [? ? ? ? ? ?]. by constructor.
Qed.

Lemma seed_step_consistent pass st cp :
  cp < n -> consistent st ->
  consistent (seed_step P old_spectrum pass st cp).
Proof.
  intros Hcp Hc. unfold seed_step.
  apply foldl_invariant; [by apply reset_intensity_consistent|].
  intros st' q _. by apply try_charge_consistent.
Qed.

Lemma initial_consistent : consistent (initial old_spectrum).
Proof.
  constructor; simpl; try apply length_replicate; try done.
  constructor.
Qed.

Lemma high_intensity_peaks_range i :
  i ∈ high_intensity_peaks old_spectrum -> i < n.
Proof.
  unfold high_intensity_peaks. rewrite list_elem_of_In, filter_In.
  intros [Hi _]. apply in_seq in Hi. lia.
Qed.

Lemma seed_pass_consistent : consistent (seed_pass P old_spectrum).
Proof.
  unfold seed_pass.
  apply foldl_invariant; [apply initial_consistent|].
  intros st cp Hcp. apply seed_step_consistent.
  by apply high_intensity_peaks_range.
Qed.

Lemma discover_consistent : consistent (discover P old_spectrum).
Proof.
  unfold discover.
  apply foldl_invariant; [apply seed_pass_consistent|].
  intros st cp Hcp. apply seed_step_consistent.
  apply elem_of_seq in Hcp. lia.
Qed.

End DiscoveryFacts.

(** ** Accumulated intensities across the two passes *)

Section IntensityFacts.
Context {K : Kernel}.
Variable P : Params.
Variable old_spectrum : MSSpectrum.

Abbreviation n := (size old_spectrum).
Abbreviation consistent := (consistent P old_spectrum).
Abbreviation exhaustive_upto := (exhaustive_upto P old_spectrum).
Abbreviation run_intensity := (run_intensity old_spectrum).
Abbreviation seed_settled := (seed_settled old_spectrum).

Lemma add_up_other cp ext m j :
  j <> cp -> add_up P old_spectrum cp ext m !! j = m !! j.
Proof.
  intros Hj. unfold add_up. destruct (add_up_intensity P); [|done].
  generalize (tail ext). intros l. revert m.
  induction l as [|e l IH]; intros m; simpl; [done|].
  rewrite IH. by apply list_lookup_insert_ne.
Qed.

Lemma add_up_length cp ext m :
  length (add_up P old_spectrum cp ext m) = length m.
Proof.
  unfold add_up. destruct (add_up_intensity P); [|done].
  generalize (tail ext). intros l. revert m.
  induction l as [|e l IH]; intros m; simpl; [done|].
  by rewrite IH, length_insert.
Qed.

Lemma try_charge_intensity_frame pass cp m st q :
  intensity_frame cp m st ->
  intensity_frame cp m (try_charge P old_spectrum pass cp st q).
Proof.
  intros [Hl Hoff]. unfold try_charge.
  destruct (_ =? _)%Z; [|done].
  destruct (pruned _ _ _ _); [done|].
  destruct (run _ _ _ _ _ _) as [[ext ipc] ok].
  destruct ok; [|done].
  split; simpl.
  - by rewrite add_up_length.
  - intros j Hj. rewrite add_up_other by done. by apply Hoff.
Qed.

(** The body of the seed loop writes [mono_iso_peak_intensity] at its own
    seed only. *)
Lemma seed_step_intensity_frame pass st cp :
  intensity_frame cp (mono_iso_peak_intensity st)
    (seed_step P old_spectrum pass st cp).
Proof.
  unfold seed_step.
  apply foldl_invariant.
  - unfold reset_intensity. destruct (add_up_intensity P); [|done].
    split; simpl; [apply length_insert|].
    intros j Hj. by apply list_lookup_insert_ne.
  - intros st' q _. apply try_charge_intensity_frame.
Qed.

(** On a claimed seed with add_up_intensity the body of the seed loop
    stores the seed's own intensity and nothing else. *)
Lemma seed_step_claimed_intensity pass st cp :
  add_up_intensity P = true ->
  features st !!! cp <> (-1)%Z ->
  cp < length (mono_iso_peak_intensity st) ->
  mono_iso_peak_intensity (seed_step P old_spectrum pass st cp) !! cp
  = Some (getIntensity (peak old_spectrum cp)).
Proof.
  intros Hadd Hcl Hlt. unfold seed_step.
  rewrite charge_loop_claimed.
  - unfold reset_intensity. rewrite Hadd. simpl.
    by apply list_lookup_insert_eq.
  - unfold reset_intensity. by rewrite Hadd.
Qed.

Lemma try_charge_keeps_claimed pass cp st q j :
  (0 <= feature_number st)%Z ->
  features st !!! j <> (-1)%Z ->
  features (try_charge P old_spectrum pass cp st q) !!! j <> (-1)%Z.
Proof.
  intros Hfn Hj. unfold try_charge.
  destruct (_ =? _)%Z; [|done].
  destruct (pruned _ _ _ _); [done|].
  destruct (run _ _ _ _ _ _) as [[ext ipc] ok].
  destruct ok; [|done]. simpl. by apply claim_keeps_claimed.
Qed.

Lemma seed_step_keeps_claimed pass st cp j :
  cp < n -> consistent st ->
  features st !!! j <> (-1)%Z ->
  features (seed_step P old_spectrum pass st cp) !!! j <> (-1)%Z.
Proof.
  intros Hcp Hc Hj. unfold seed_step.
  apply (foldl_invariant
           (fun st' => consistent st' /\ features st' !!! j <> (-1)%Z)).
  - split; [by apply reset_intensity_consistent|].
    unfold reset_intensity. by destruct (add_up_intensity P).
  - intros st' q _ [Hc' Hj']. split.
    + by apply try_charge_consistent.
    + apply try_charge_keeps_claimed; [|done]. by destruct Hc'.
Qed.

Lemma seed_pass_intensity_length :
  length (mono_iso_peak_intensity (seed_pass P old_spectrum)) = n.
Proof.
  unfold seed_pass.
  apply (foldl_invariant
           (fun st => length (mono_iso_peak_intensity st) = n)).
  - apply length_replicate.
  - intros st cp _ Hl.
    destruct (seed_step_intensity_frame HighIntensityPass st cp) as [-> _].
    done.
Qed.

Lemma exhaustive_upto_spec k :
  k <= n ->
  consistent (exhaustive_upto k)
  /\ length (mono_iso_peak_intensity (exhaustive_upto k)) = n
  /\ (forall j, features (seed_pass P old_spectrum) !!! j <> (-1)%Z ->
        features (exhaustive_upto k) !!! j <> (-1)%Z)
  /\ (add_up_intensity P = true ->
      forall j, j < k ->
        features (seed_pass P old_spectrum) !!! j <> (-1)%Z ->
        mono_iso_peak_intensity (exhaustive_upto k) !! j
        = Some (getIntensity (peak old_spectrum j))).
Proof.
  unfold exhaustive_upto.
  induction k as [|k IH]; intros Hk.
  { simpl. split; [apply seed_pass_consistent|].
    split; [apply seed_pass_intensity_length|].
    split; [done|]. intros _ j Hj. lia. }
  destruct IH as (Hc & Hl & Hmono & Hint); [lia|].
  rewrite seq_S, foldl_snoc. simpl.
  set (st := foldl _ _ _) in *.
  destruct (seed_step_intensity_frame ExhaustivePass st k) as [Hl' Hoff].
  split; [apply seed_step_consistent; [lia|done]|].
  split; [congruence|].
  split.
  { intros j Hj. apply seed_step_keeps_claimed; [lia|done|]. by apply Hmono. }
  intros Hadd j Hj Hcl.
  destruct (decide (j = k)) as [->|Hne].
  - apply seed_step_claimed_intensity; [done| |lia]. by apply Hmono.
  - rewrite Hoff by done. apply Hint; [done|lia|done].
Qed.

(** X1: with add_up_intensity, the seed of every group accepted in the
    high-intensity seed pass ends the discovery with its own intensity as
    accumulated intensity: the loop over all peaks stores the own
    intensity again and then skips the claimed seed. *)
Theorem seed_pass_sum_lost (g : Group) :
  add_up_intensity P = true ->
  g ∈ accepted (seed_pass P old_spectrum) ->
  mono_iso_peak_intensity (discover P old_spectrum) !! seed g
  = Some (getIntensity (peak old_spectrum (seed g))).
Proof.
  intros Hadd Hg.
  pose proof (seed_pass_consistent P old_spectrum) as [_ _ _ _ Hok _].
  rewrite Forall_forall in Hok.
  destruct (Hok g Hg) as [Hseed [rest Hhead] Hcl _ _ _].
  destruct (exhaustive_upto_spec n) as (_ & _ & _ & Hint); [done|].
  apply Hint; [done|done|].
  apply Hcl; [|done]. rewrite Hhead. left.
Qed.

Lemma add_up_seed cp ext m :
  add_up_intensity P = true ->
  m !! cp = Some (getIntensity (peak old_spectrum cp)) ->
  add_up P old_spectrum cp ext m !! cp = Some (run_intensity cp ext).
Proof.
  intros Hadd. unfold add_up, run_intensity. rewrite Hadd.
  generalize (tail ext) (getIntensity (peak old_spectrum cp)).
  intros l. revert m. induction l as [|e l IH]; intros m x Hm; simpl; [done|].
  apply IH.
  assert (Hlt : cp < length m) by (apply lookup_lt_is_Some; eauto).
  rewrite list_lookup_insert_eq by done.
  by rewrite (list_lookup_total_correct m cp x Hm).
Qed.

Lemma try_charge_settled pass st0 cp st q :
  add_up_intensity P = true ->
  (0 <= feature_number st)%Z ->
  cp < length (features st) ->
  seed_settled st0 cp st ->
  seed_settled st0 cp (try_charge P old_spectrum pass cp st q).
Proof.
  intros Hadd Hfn Hlt [(Hun & Hacc & Hm)|(q' & ext & Hacc & Hcl & Hm)].
  - unfold try_charge. rewrite Hun, Z.eqb_refl.
    destruct (pruned _ _ _ _); [left; done|].
    destruct (run _ _ _ _ _ _) as [[ext ipc] ok] eqn:Hrun.
    apply run_spec in Hrun as (_ & _ & [rest Hhead] & _).
    destruct ok; [|left; done].
    right. exists q, ext. simpl.
    split; [by rewrite Hacc|].
    split; [|by apply add_up_seed].
    rewrite claim_lookup_in; [lia| |done]. rewrite Hhead. left.
  - rewrite try_charge_claimed by done. right. by exists q', ext.
Qed.

Lemma seed_step_settled pass st cp :
  add_up_intensity P = true ->
  consistent st -> cp < n ->
  length (mono_iso_peak_intensity st) = n ->
  features st !!! cp = (-1)%Z ->
  seed_settled st cp (seed_step P old_spectrum pass st cp).
Proof.
  intros Hadd Hc Hcp Hl Hun. unfold seed_step.
  apply (foldl_invariant
           (fun st' => consistent st' /\ seed_settled st cp st')).
  - split; [by apply reset_intensity_consistent|].
    left. unfold reset_intensity. rewrite Hadd. simpl.
    repeat split; try done. apply list_lookup_insert_eq. lia.
  - intros st' q _ [Hc' Hs]. split; [by apply try_charge_consistent|].
    destruct Hc' as [Hlf _ _ Hfn _ _].
    apply try_charge_settled; try done. lia.
Qed.

Lemma seed_step_claimed_accepted pass st cp :
  features st !!! cp <> (-1)%Z ->
  accepted (seed_step P old_spectrum pass st cp) = accepted st.
Proof.
  intros Hcl. unfold seed_step. rewrite charge_loop_claimed.
  - unfold reset_intensity. by destruct (add_up_intensity P).
  - unfold reset_intensity. by destruct (add_up_intensity P).
Qed.

(** The groups accepted by the loop over all peaks follow those of the
    seed pass in the history, and each of their seeds holds the sum of
    its run. *)
Lemma exhaustive_upto_sums k :
  add_up_intensity P = true ->
  k <= n ->
  exists later,
    accepted (exhaustive_upto k)
    = accepted (seed_pass P old_spectrum) ++ later
    /\ forall g, g ∈ later ->
         seed g < k
         /\ mono_iso_peak_intensity (exhaustive_upto k) !! seed g
            = Some (run_intensity (seed g) (members g)).
Proof.
  intros Hadd. induction k as [|k IH]; intros Hk.
  { exists []. split; [by rewrite app_nil_r|].
    intros g Hg. by apply not_elem_of_nil in Hg. }
  destruct IH as (later & Hacc & Hlater); [lia|].
  destruct (exhaustive_upto_spec k) as (Hc & Hl & _); [lia|].
  unfold exhaustive_upto in *. rewrite seq_S, foldl_snoc. simpl.
  set (st := foldl _ _ _) in *.
  destruct (seed_step_intensity_frame ExhaustivePass st k) as [_ Hoff].
  assert (Hold : forall g, g ∈ later ->
    seed g < S k
    /\ mono_iso_peak_intensity (seed_step P old_spectrum ExhaustivePass st k)
         !! seed g
       = Some (run_intensity (seed g) (members g))).
  { intros g Hg. destruct (Hlater g Hg) as [Hs Hm].
    split; [lia|]. rewrite Hoff by lia. done. }
  destruct (decide (features st !!! k = (-1)%Z)) as [Hun|Hcl].
  - destruct (seed_step_settled ExhaustivePass st k Hadd Hc) as
      [(_ & Ha & _)|(q & ext & Ha & _ & Hm)]; try done; try lia.
    + exists later. split; [congruence|done].
    + exists (later ++ [mkGroup k q ext]).
      split; [by rewrite Ha, Hacc, app_assoc|].
      intros g Hg. apply elem_of_app in Hg as [Hg|Hg]; [by apply Hold|].
      apply list_elem_of_singleton in Hg as ->. simpl. split; [lia|done].
  - exists later. rewrite seed_step_claimed_accepted by done. done.
Qed.

End IntensityFacts.

(** ** Isotope groups *)

Lemma claimed_twice_refutes log :
  claimed_twice log -> ~ at_most_one_group log.
Proof.
  intros (i & j & gi & gj & p & Hi & Hj & Hpi & Hpj & Hne) H.
  apply Hne. by apply (H i j gi gj p).
Qed.

(** C1, counterexample: on the spectrum [(100.0,1000),(100.02,800),
    (101.01,500)] with charge 1 and tolerance 0.05 Da the peak at 101.01 is
    claimed by the group seeded at 100.0 and claimed again by the group
    seeded at 100.02; its feature id is overwritten from 0 to 1. *)
Lemma C1_peak_claimed_twice :
  claimed_twice
    (accepted (discover (K := Model.kernel)
                 Scenario.overlap_params Scenario.overlap))
  /\ features (discover (K := Model.kernel)
                 Scenario.overlap_params Scenario.overlap)
     = [0; 1; 1]%Z.
Proof.
  split; [|vm_compute; reflexivity].
  exists 0, 1, (mkGroup 0 1 [0; 2]), (mkGroup 1 1 [1; 2]), 2.
  split; [vm_compute; reflexivity|].
  split; [vm_compute; reflexivity|].
  split; [apply list_elem_of_In; simpl; tauto|].
  split; [apply list_elem_of_In; simpl; tauto|].
  lia.
Qed.

(** C1, amended: a peak index that has been claimed into a group (as its
    seed or as an extension member) is never afterwards taken as the seed
    of another group, in the high-intensity seed pass or in the exhaustive
    pass: the seed of a group is no member of any group accepted before
    it.  Extension members are not tested against earlier claims. *)
Theorem C1_claimed_peak_never_seeds `{K : Kernel} (P : Params)
    (spec : MSSpectrum) (i j : nat) (gi gj : Group) :
  accepted (discover P spec) !! i = Some gi ->
  accepted (discover P spec) !! j = Some gj ->
  i < j ->
  seed gj ∉ members gi.
Proof.
  intros Hi Hj Hij.
  eapply fresh_seeds_lookup; eauto.
  apply discover_consistent.
Qed.

Lemma C1_claimed_peak_never_seeds_witness :
  accepted (discover (K := Model.kernel)
              Scenario.overlap_params Scenario.overlap) !! 0
  = Some (mkGroup 0 1 [0; 2])
  /\ accepted (discover (K := Model.kernel)
                 Scenario.overlap_params Scenario.overlap) !! 1
     = Some (mkGroup 1 1 [1; 2])
  /\ 0 < 1
  /\ 1 ∉ [0; 2].
Proof.
  split; [vm_compute; reflexivity|].
  split; [vm_compute; reflexivity|].
  split; [lia|].
  apply (C1_claimed_peak_never_seeds (K := Model.kernel)
           Scenario.overlap_params Scenario.overlap 0 1
           (mkGroup 0 1 [0; 2]) (mkGroup 1 1 [1; 2]));
    [vm_compute; reflexivity | vm_compute; reflexivity | lia].
Defined.



(** ** The charge loop *)

Section ChargeFacts.
Context {K : Kernel}.
Variable P : Params.
Variable old_spectrum : MSSpectrum.

Abbreviation viable := (viable P old_spectrum).

Lemma descending_sorted hi m : forall s,
  StronglySorted (fun a b : Z => (b < a)%Z)
    (map (fun k => (hi - Z.of_nat k)%Z) (seq s m)).
Proof.
  induction m as [|m IH]; intros s; simpl; constructor; [apply IH|].
  apply Forall_forall. intros x Hx.
  apply list_elem_of_In, in_map_iff in Hx as (k & <- & Hk).
  apply in_seq in Hk. lia.
Qed.

Lemma charges_sorted :
  StronglySorted (fun a b : Z => (b < a)%Z) (charges P).
Proof. apply descending_sorted. Qed.

Lemma charges_range q :
  q ∈ charges P <-> (min_charge P <= q <= max_charge P)%Z.
Proof.
  unfold charges. rewrite list_elem_of_In, in_map_iff. split.
  - intros (k & <- & Hk). apply in_seq in Hk. lia.
  - intros Hq. exists (Z.to_nat (max_charge P - q)). split; [lia|].
    apply in_seq. lia.
Qed.

Lemma charges_split pre q post :
  charges P = pre ++ q :: post ->
  Forall (fun q' => (q < q')%Z) pre /\ Forall (fun q' => (q' < q)%Z) post.
Proof.
  intros Hsplit. pose proof charges_sorted as Hs. rewrite Hsplit in Hs.
  split; apply Forall_forall; intros q' Hq'.
  - apply (StronglySorted_app_1_elem_of _ _ _ q' q Hs Hq'). left.
  - apply StronglySorted_app_1_r in Hs.
    apply StronglySorted_cons in Hs as [Hall _].
    rewrite Forall_forall in Hall. by apply Hall.
Qed.

(** One charge hypothesis on an unclaimed seed: it is accepted exactly
    when it is viable. *)
Lemma try_charge_viable pass cp st q :
  min_isopeaks P <= max_isopeaks P -> 1 <= max_isopeaks P ->
  features st !!! cp = (-1)%Z ->
  viable pass cp q = true ->
  let st' := try_charge P old_spectrum pass cp st q in
  mono_isotopic_peak st'
    = <[cp := to_size_t q]> (mono_isotopic_peak st)
  /\ features st'
     = claim (feature_number st) (extension P old_spectrum pass cp q)
         (features st)
  /\ accepted st'
     = accepted st ++ [mkGroup cp q (extension P old_spectrum pass cp q)].
Proof.
  intros Hmm Hmax Hun Hv. unfold viable in Hv.
  apply andb_true_iff in Hv as [Hp Hr]. apply negb_true_iff in Hp.
  unfold try_charge. rewrite Hun, Z.eqb_refl, Hp.
  destruct (run _ _ _ _ _ _) as [[ext ipc] ok] eqn:Hrun.
  apply run_spec in Hrun as (-> & _ & _ & _ & Hflag & _).
  destruct (Hflag Hmm Hmax) as [-> _]. by rewrite Hr.
Qed.

Lemma try_charge_not_viable pass cp st q :
  min_isopeaks P <= max_isopeaks P -> 1 <= max_isopeaks P ->
  viable pass cp q = false ->
  let st' := try_charge P old_spectrum pass cp st q in
  mono_isotopic_peak st' = mono_isotopic_peak st
  /\ features st' = features st
  /\ mono_iso_peak_intensity st' = mono_iso_peak_intensity st
  /\ feature_number st' = feature_number st
  /\ accepted st' = accepted st.
Proof.
  intros Hmm Hmax Hv. unfold viable in Hv. unfold try_charge.
  destruct (features st !!! cp =? -1)%Z; [|done].
  destruct (pruned _ _ _ _); [done|]. simpl in Hv.
  destruct (run _ _ _ _ _ _) as [[ext ipc] ok] eqn:Hrun.
  apply run_spec in Hrun as (-> & _ & _ & _ & Hflag & _).
  destruct (Hflag Hmm Hmax) as [-> _]. by rewrite Hv.
Qed.

Lemma charge_loop_first_viable pass cp qs :
  min_isopeaks P <= max_isopeaks P -> 1 <= max_isopeaks P ->
  forall st,
    (0 <= feature_number st)%Z ->
    cp < length (features st) ->
    cp < length (mono_isotopic_peak st) ->
    features st !!! cp = (-1)%Z ->
    let loop := foldl (try_charge P old_spectrum pass cp) st in
    (exists pre q post,
        qs = pre ++ q :: post
        /\ Forall (fun q' => viable pass cp q' = false) pre
        /\ viable pass cp q = true
        /\ loop qs = loop (pre ++ [q])
        /\ mono_isotopic_peak (loop qs) !! cp = Some (to_size_t q)
        /\ accepted (loop qs)
           = accepted st ++ [mkGroup cp q (extension P old_spectrum pass cp q)])
    \/ (Forall (fun q' => viable pass cp q' = false) qs
        /\ mono_isotopic_peak (loop qs) = mono_isotopic_peak st
        /\ features (loop qs) = features st
        /\ accepted (loop qs) = accepted st).
Proof.
  intros Hmm Hmax.
  induction qs as [|q qs IH]; intros st Hfn Hlf Hlm Hun; simpl.
  { right. by repeat split. }
  destruct (viable pass cp q) eqn:Hv.
  - left. exists [], q, qs. simpl.
    destruct (try_charge_viable pass cp st q Hmm Hmax Hun Hv)
      as (Hm & Hf & Ha).
    assert (Hcl : features (try_charge P old_spectrum pass cp st q) !!! cp
                  <> (-1)%Z).
    { rewrite Hf, claim_lookup_in; [lia| |done].
      destruct (extension_head P old_spectrum pass cp q) as [rest ->]. left. }
    rewrite charge_loop_claimed by done.
    repeat split; try done.
    rewrite Hm. by apply list_lookup_insert_eq.
  - destruct (try_charge_not_viable pass cp st q Hmm Hmax Hv)
      as (Hm & Hf & _ & Hn & Ha).
    destruct (IH (try_charge P old_spectrum pass cp st q))
      as [(pre & q' & post & -> & Hpre & Hq' & Hloop & Hrec & Hacc)
         |(Hall & Hm' & Hf' & Ha')];
      try congruence.
    + left. exists (q :: pre), q', post. simpl.
      repeat split; try done; [by constructor | congruence].
    + right. repeat split; try congruence. by constructor.
Qed.

End ChargeFacts.

Section ChargeOutcome.
Context {K : Kernel}.
Variable P : Params.
Variable old_spectrum : MSSpectrum.

Abbreviation accepted_at := (accepted_at P old_spectrum).
Abbreviation all_rejected := (all_rejected P old_spectrum).

Lemma reset_intensity_fields cp st :
  let st' := reset_intensity P old_spectrum cp st in
  mono_isotopic_peak st' = mono_isotopic_peak st
  /\ features st' = features st
  /\ feature_number st' = feature_number st
  /\ accepted st' = accepted st.
Proof. unfold reset_intensity. by destruct (add_up_intensity P). Qed.


End ChargeOutcome.


(** C7: at isotope index 1, when [findNearest] returns a candidate that
    passes the decreasing-intensity test, both passes reject it when its
    intensity ratio to the seed exceeds 10.0; when the ratio is below 0.01
    the high-intensity seed pass rejects it (the run stays the seed alone)
    whereas the exhaustive pass takes it into the run; when the ratio is
    neither, both passes take it. *)
Theorem C7_noise_guard_only_in_seed_pass `{K : Kernel} (P : Params)
    (spec : MSSpectrum) (cp : nat) (q : Z) (p : nat) :
  2 <= max_isopeaks P ->
  findNearest (peaks spec) (expected_mz spec cp q 1)
    (tolerance_dalton P (getMZ (peak spec cp))) = Some p ->
  decreasing_violated P spec 1 p cp = false ->
  (PrimFloat.ltb 10 (ratio spec p cp) = true ->
   forall pass, extension P spec pass cp q = [cp])
  /\ (PrimFloat.ltb 10 (ratio spec p cp) = false ->
      PrimFloat.ltb (ratio spec p cp) 0.01 = true ->
      extension P spec HighIntensityPass cp q = [cp]
      /\ exists rest, extension P spec ExhaustivePass cp q = cp :: p :: rest)
  /\ (PrimFloat.ltb 10 (ratio spec p cp) = false ->
      PrimFloat.ltb (ratio spec p cp) 0.01 = false ->
      forall pass, exists rest, extension P spec pass cp q = cp :: p :: rest).
Proof.
  intros Hmax Hfind Hdec.
  assert (Hgrow : forall pass,
    satellite spec 1 p cp = false -> noise spec pass 1 p cp = false ->
    exists rest, extension P spec pass cp q = cp :: p :: rest).
  { intros pass Hsat Hnoise. unfold extension, run.
    destruct (max_isopeaks P - 1) as [|todo] eqn:Htodo; [lia|].
    simpl. unfold back. simpl. rewrite Hfind, Hdec, Hsat, Hnoise.
    destruct (extend _ _ _ _ _ _ _ _ _) as [[ext ipc] ok] eqn:Hrun.
    apply extend_spec in Hrun as (_ & [rest ->] & _); [|done].
    by exists rest. }
  assert (Hstop : forall pass,
    satellite spec 1 p cp || noise spec pass 1 p cp = true ->
    extension P spec pass cp q = [cp]).
  { intros pass Hor. unfold extension, run.
    destruct (max_isopeaks P - 1) as [|todo] eqn:Htodo; [lia|].
    simpl. unfold back. simpl. rewrite Hfind, Hdec.
    destruct (satellite spec 1 p cp); [done|]. simpl in Hor.
    by rewrite Hor. }
  unfold satellite, noise in *. simpl in *.
  split; [|split].
  - intros Hbig pass. apply Hstop. by rewrite Hbig.
  - intros Hbig Hsmall. split.
    + apply Hstop. by rewrite Hbig, Hsmall.
    + apply Hgrow; [by rewrite Hbig | done].
  - intros Hbig Hsmall pass. apply Hgrow; [by rewrite Hbig|].
    destruct pass; [by rewrite Hsmall | done].
Qed.

Lemma C7_noise_guard_only_in_seed_pass_witness :
  2 <= max_isopeaks Scenario.faint_params
  /\ findNearest (Kernel := Model.kernel) (peaks Scenario.faint)
       (expected_mz (K := Model.kernel) Scenario.faint 0 1 1)
       (tolerance_dalton (K := Model.kernel) Scenario.faint_params
          (getMZ (peak Scenario.faint 0))) = Some 1
  /\ decreasing_violated Scenario.faint_params Scenario.faint 1 1 0 = false
  /\ PrimFloat.ltb 10 (ratio Scenario.faint 1 0) = false
  /\ PrimFloat.ltb (ratio Scenario.faint 1 0) 0.01 = true
  /\ extension (K := Model.kernel) Scenario.faint_params Scenario.faint
       HighIntensityPass 0 1 = [0]
  /\ exists rest,
       extension (K := Model.kernel) Scenario.faint_params Scenario.faint
         ExhaustivePass 0 1 = 0 :: 1 :: rest.
Proof.
  assert (Hmax : 2 <= max_isopeaks Scenario.faint_params) by (simpl; lia).
  assert (Hfind : findNearest (Kernel := Model.kernel) (peaks Scenario.faint)
       (expected_mz (K := Model.kernel) Scenario.faint 0 1 1)
       (tolerance_dalton (K := Model.kernel) Scenario.faint_params
          (getMZ (peak Scenario.faint 0))) = Some 1)
    by (vm_compute; reflexivity).
  assert (Hdec : decreasing_violated Scenario.faint_params Scenario.faint
                   1 1 0 = false) by (vm_compute; reflexivity).
  assert (Hbig : PrimFloat.ltb 10 (ratio Scenario.faint 1 0) = false)
    by (vm_compute; reflexivity).
  assert (Hsmall : PrimFloat.ltb (ratio Scenario.faint 1 0) 0.01 = true)
    by (vm_compute; reflexivity).
  split; [exact Hmax|]. split; [exact Hfind|]. split; [exact Hdec|].
  split; [exact Hbig|]. split; [exact Hsmall|].
  exact (proj1 (proj2 (C7_noise_guard_only_in_seed_pass (K := Model.kernel)
                  Scenario.faint_params Scenario.faint 0 1 1
                  Hmax Hfind Hdec)) Hbig Hsmall).
Defined.

(** ** Selection of the surviving peaks *)

Section SelectionFacts.
Context {K : Kernel}.
Variable P : Params.

Lemma annotate_peaks on index v spec :
  peaks (annotate on index v spec) = peaks spec.
Proof. unfold annotate. by destruct on. Qed.

Lemma select_step_spec d ci ii spec sel i :
  let r := select_step P d ci ii (spec, sel) i in
  length (peaks r.1) = length (peaks spec)
  /\ (r.2 = sel \/ r.2 = sel ++ [i]).
Proof.
  unfold select_step.
  set (s1 := annotate _ _ _ (annotate _ _ _ spec)).
  assert (H1 : length (peaks s1) = length (peaks spec)).
  { unfold s1. by rewrite !annotate_peaks. }
  set (s2 := if add_up_intensity P then _ else s1).
  assert (H2 : length (peaks s2) = length (peaks spec)).
  { unfold s2. destruct (add_up_intensity P); [|done].
    simpl. by rewrite length_alter. }
  destruct (negb _ && _); simpl; [auto|].
  destruct (_ =? 0)%Z; simpl; [auto|].
  split; [|auto].
  destruct (make_single_charged P); [|done].
  simpl. by rewrite length_alter.
Qed.

Lemma select_loop_spec d ci ii spec k :
  let r := foldl (select_step P d ci ii) (spec, []) (seq 0 k) in
  length (peaks r.1) = length (peaks spec)
  /\ NoDup r.2 /\ Forall (fun i => i < k) r.2.
Proof.
  induction k as [|k IH]; cbv zeta in *.
  { simpl. repeat split; constructor. }
  rewrite seq_S, foldl_snoc. simpl.
  destruct (foldl _ _ _) as [spec' sel]. simpl in IH.
  destruct IH as (Hl & Hnd & Hlt).
  destruct (select_step_spec d ci ii spec' sel k) as (Hl' & [->| ->]).
  - split; [congruence|]. split; [done|].
    eapply Forall_impl; [exact Hlt|]. simpl. lia.
  - split; [congruence|]. split.
    + apply NoDup_app. split; [done|]. split; [|apply NoDup_singleton].
      intros x Hx Hk. apply list_elem_of_singleton in Hk as ->.
      rewrite Forall_forall in Hlt. apply Hlt in Hx. lia.
    + apply Forall_app. split; [|by repeat constructor].
      eapply Forall_impl; [exact Hlt|]. simpl. lia.
Qed.

Lemma push_if_absent_distinct n sel i :
  i < n -> distinct_below n sel -> distinct_below n (push_if_absent sel i).
Proof.
  intros Hi [Hnd Hlt]. unfold push_if_absent.
  destruct (decide (i ∈ sel)) as [Hin|Hout]; [done|].
  split.
  - apply NoDup_app. split; [done|]. split; [|apply NoDup_singleton].
    intros x Hx Hk. by apply list_elem_of_singleton in Hk as ->.
  - apply Forall_app. split; [done | by repeat constructor].
Qed.

Lemma preserve_high_distinct n high sel :
  Forall (fun i => i < n) high ->
  distinct_below n sel -> distinct_below n (preserve_high high sel).
Proof.
  intros Hhigh Hsel. unfold preserve_high.
  apply foldl_invariant; [done|].
  intros sel' i Hi. apply push_if_absent_distinct.
  rewrite Forall_forall in Hhigh. by apply Hhigh.
Qed.

Lemma preserve_low_distinct n spec idx :
  Forall (fun i => i < n) idx ->
  forall sel, distinct_below n sel -> distinct_below n (preserve_low spec idx sel).
Proof.
  induction 1 as [|i idx Hi _ IH]; intros sel Hsel; simpl; [done|].
  destruct (PrimFloat.ltb _ _); [|done].
  by apply IH, push_if_absent_distinct.
Qed.

Lemma final_select_idx_distinct spec :
  distinct_below (length (peaks spec)) (final_select_idx P spec).
Proof.
  unfold final_select_idx, selected.
  pose proof (select_loop_spec
                (discover P (reserved P spec)) (charge_index_of spec)
                (iso_peak_count_index_of P spec) (reserved P spec)
                (length (peaks spec))) as Hloop.
  destruct (foldl _ _ _) as [spec' sel]. simpl in Hloop.
  destruct Hloop as (_ & Hnd & Hlt).
  apply preserve_low_distinct.
  { apply Forall_forall. intros i Hi. apply elem_of_seq in Hi. lia. }
  apply preserve_high_distinct; [|done].
  apply Forall_forall. intros i Hi.
  apply high_intensity_peaks_range in Hi.
  unfold size, reserved, reserve in Hi.
  by destruct (annotate_charge P), (annotate_iso_peak_count P).
Qed.

Lemma selected_peaks_length spec :
  length (peaks (selected P spec).1) = length (peaks spec).
Proof.
  unfold selected.
  pose proof (select_loop_spec
                (discover P (reserved P spec)) (charge_index_of spec)
                (iso_peak_count_index_of P spec) (reserved P spec)
                (length (peaks spec))) as (Hl & _).
  rewrite Hl. unfold reserved, reserve.
  by destruct (annotate_charge P), (annotate_iso_peak_count P).
Qed.

End SelectionFacts.

(** ** The annotation arrays *)

Section AnnotationFacts.
Context {K : Kernel}.
Variable P : Params.
Variable d : Discovery.
Variables charge_index iso_peak_count_index : nat.

Abbreviation pushed := (pushed P d charge_index iso_peak_count_index).

Lemma annotate_arrays on index v spec idx :
  getIntegerDataArrays (annotate on index v spec) !! idx
  = extended_by (if on && (idx =? index) then [v] else [])
      <$> getIntegerDataArrays spec !! idx.
Proof.
  unfold annotate. destruct on; simpl.
  - destruct (Nat.eqb_spec idx index) as [->|Hne].
    + by rewrite list_lookup_alter_eq.
    + rewrite list_lookup_alter_ne by done.
      destruct (_ !! idx) as [[nm dt]|]; [|done].
      simpl. unfold extended_by. simpl. by rewrite app_nil_r.
  - destruct (_ !! idx) as [[nm dt]|]; [|done].
    simpl. unfold extended_by. simpl. by rewrite app_nil_r.
Qed.

Lemma select_step_arrays spec sel i idx :
  getIntegerDataArrays
    (select_step P d charge_index iso_peak_count_index (spec, sel) i).1 !! idx
  = extended_by (pushed idx i) <$> getIntegerDataArrays spec !! idx.
Proof.
  unfold select_step.
  set (s1 := annotate _ _ _ (annotate _ _ _ spec)).
  assert (H1 : getIntegerDataArrays s1 !! idx
               = extended_by (pushed idx i)
                   <$> getIntegerDataArrays spec !! idx).
  { unfold s1. rewrite !annotate_arrays.
    destruct (_ !! idx) as [[nm dt]|]; [|done]. simpl.
    unfold extended_by, pushed. simpl. by rewrite <- app_assoc. }
  set (s2 := if add_up_intensity P then _ else s1).
  assert (H2 : getIntegerDataArrays s2 = getIntegerDataArrays s1).
  { unfold s2. by destruct (add_up_intensity P). }
  destruct (negb _ && _); simpl; [by rewrite H2|].
  destruct (_ =? 0)%Z; simpl; [by rewrite H2|].
  destruct (make_single_charged P); simpl; by rewrite H2.
Qed.

Lemma select_loop_arrays spec k idx :
  getIntegerDataArrays
    (foldl (select_step P d charge_index iso_peak_count_index)
           (spec, []) (seq 0 k)).1 !! idx
  = extended_by (flat_map (pushed idx) (seq 0 k))
      <$> getIntegerDataArrays spec !! idx.
Proof.
  induction k as [|k IH].
  { simpl. destruct (_ !! idx) as [[nm dt]|]; [|done].
    simpl. unfold extended_by. simpl. by rewrite app_nil_r. }
  rewrite seq_S, foldl_snoc. simpl.
  destruct (foldl _ _ _) as [spec' sel]. simpl in IH.
  rewrite select_step_arrays, IH. clear IH.
  destruct (getIntegerDataArrays spec !! idx) as [[nm dt]|]; [|done].
  simpl. unfold extended_by. simpl.
  rewrite flat_map_app. simpl. by rewrite app_nil_r, app_assoc.
Qed.

End AnnotationFacts.

Lemma insert_by_mz_range pks i sorted n :
  i < n -> Forall (fun j => j < n) sorted ->
  Forall (fun j => j < n) (insert_by_mz pks i sorted).
Proof.
  intros Hi. induction 1 as [|j r Hj Hr IH]; simpl.
  { by repeat constructor. }
  destruct (PrimFloat.ltb _ _); by repeat constructor.
Qed.

Lemma sorted_order_range pks :
  Forall (fun j => j < length pks) (sorted_order pks).
Proof.
  unfold sorted_order.
  assert (H : forall l, Forall (fun j => j < length pks) l ->
            Forall (fun j => j < length pks) (foldr (insert_by_mz pks) [] l)).
  { induction 1; simpl; [constructor | by apply insert_by_mz_range]. }
  apply H, Forall_forall. intros j Hj. apply elem_of_seq in Hj. lia.
Qed.

Lemma sortByPosition_count s :
  length (peaks (sortByPosition s)) = length (peaks s).
Proof.
  unfold sortByPosition, select. simpl.
  rewrite gather_in_range by apply sorted_order_range.
  apply sorted_order_length.
Qed.

(** C10: for every input spectrum and every configuration, the index set
    handed to [select] holds distinct indices of original peaks, so the
    output has at most as many peaks as the input; when the routine
    returns on a non-empty spectrum the output has exactly one peak per
    selected index. *)
Theorem C10_output_not_longer `{K : Kernel} (P : Params)
    (spec : MSSpectrum) :
  NoDup (final_select_idx P spec)
  /\ Forall (fun i => i < length (peaks spec)) (final_select_idx P spec)
  /\ length (peaks (deisotopeAndSingleCharge P spec).2)
     <= length (peaks spec)
  /\ ((deisotopeAndSingleCharge P spec).1 = Returned ->
      peaks spec <> [] ->
      length (peaks (deisotopeAndSingleCharge P spec).2)
      = length (final_select_idx P spec)).
Proof.
  destruct (final_select_idx_distinct P spec) as [Hnd Hlt].
  assert (Hsel : length (peaks (sortByPosition
                   (select (final_select_idx P spec) (selected P spec).1)))
                 = length (final_select_idx P spec)).
  { rewrite sortByPosition_count. unfold select. simpl.
    apply gather_in_range. by rewrite selected_peaks_length. }
  assert (Hle : length (final_select_idx P spec) <= length (peaks spec)).
  { assert (Hsub : final_select_idx P spec ⊆+ seq 0 (length (peaks spec))).
    { apply NoDup_submseteq; [done|]. intros i Hi. apply elem_of_seq.
      rewrite Forall_forall in Hlt. apply Hlt in Hi. lia. }
    apply submseteq_length in Hsub. by rewrite length_seq in Hsub. }
  split; [done|]. split; [done|].
  unfold deisotopeAndSingleCharge.
  destruct (assertions && negb (isSorted spec)); simpl; [split; [lia|done]|].
  destruct (illegal_isopeaks P); simpl; [split; [lia|done]|].
  destruct (peaks spec) as [|pk pks] eqn:Hpk; cbn [fst snd].
  - split; [|done]. unfold reserved, reserve.
    destruct (annotate_charge P), (annotate_iso_peak_count P); simpl;
      rewrite Hpk; simpl; lia.
  - split; [|done]. rewrite Hsel. lia.
Qed.

(** ** Errors and degenerate input *)

Lemma illegal_isopeaks_iff (P : Params) :
  illegal_isopeaks P = true
  <-> min_isopeaks P < 2 \/ max_isopeaks P < 2
      \/ max_isopeaks P < min_isopeaks P.
Proof.
  unfold illegal_isopeaks.
  rewrite !orb_true_iff, !Nat.ltb_lt. tauto.
Qed.

Lemma valid_not_illegal (P : Params) :
  valid_isopeaks P -> illegal_isopeaks P = false.
Proof.
  intros [Hmin Hmm]. apply not_true_is_false.
  rewrite illegal_isopeaks_iff. lia.
Qed.

(** C5: on a sorted spectrum the routine raises the invalid-argument
    error if and only if min_isopeaks < 2 or max_isopeaks < 2 or
    min_isopeaks > max_isopeaks; whenever it raises, the spectrum it hands
    back is the one it was given: no peak is modified and no annotation
    array is added. *)
Theorem C5_illegal_argument `{K : Kernel} (P : Params) (spec : MSSpectrum) :
  isSorted spec = true ->
  ((deisotopeAndSingleCharge P spec).1 = Thrown IllegalArgument
   <-> min_isopeaks P < 2 \/ max_isopeaks P < 2
       \/ max_isopeaks P < min_isopeaks P)
  /\ (forall e, (deisotopeAndSingleCharge P spec).1 = Thrown e ->
      (deisotopeAndSingleCharge P spec).2 = spec).
Proof.
  intros Hsorted. rewrite <- illegal_isopeaks_iff.
  unfold deisotopeAndSingleCharge. rewrite Hsorted, andb_false_r.
  destruct (illegal_isopeaks P); simpl.
  - by split.
  - split; [|by destruct (peaks spec)].
    split; [|done]. by destruct (peaks spec).
Qed.

Lemma C5_illegal_argument_witness :
  isSorted Scenario.three_peaks = true
  /\ ((deisotopeAndSingleCharge (K := Model.kernel)
         (mkParams 0.05 false 1 1 false 1 3 true true true true 2 false)
         Scenario.three_peaks).1 = Thrown IllegalArgument
      <-> 1 < 2 \/ 3 < 2 \/ 3 < 1)
  /\ (forall e,
        (deisotopeAndSingleCharge (K := Model.kernel)
           (mkParams 0.05 false 1 1 false 1 3 true true true true 2 false)
           Scenario.three_peaks).1 = Thrown e ->
        (deisotopeAndSingleCharge (K := Model.kernel)
           (mkParams 0.05 false 1 1 false 1 3 true true true true 2 false)
           Scenario.three_peaks).2 = Scenario.three_peaks).
Proof.
  assert (Hs : isSorted Scenario.three_peaks = true)
    by (vm_compute; reflexivity).
  split; [exact Hs|].
  exact (C5_illegal_argument (K := Model.kernel)
           (mkParams 0.05 false 1 1 false 1 3 true true true true 2 false)
           Scenario.three_peaks Hs).
Defined.

(** C9: on an empty spectrum with a valid isotope-count range the routine
    raises no error; it returns with the peak list still empty and with
    the requested "charge" and "iso_peak_count" arrays appended, each
    empty, after the arrays the spectrum already had. *)
Theorem C9_empty_spectrum `{K : Kernel} (P : Params) (spec : MSSpectrum) :
  valid_isopeaks P ->
  peaks spec = [] ->
  deisotopeAndSingleCharge P spec
  = (Returned,
     mkSpectrum []
       (getIntegerDataArrays spec
        ++ (if annotate_charge P then [mkIDA "charge" []] else [])
        ++ (if annotate_iso_peak_count P
            then [mkIDA "iso_peak_count" []] else []))
       (getPrecursors spec)).
Proof.
  intros Hv Hempty. unfold deisotopeAndSingleCharge, isSorted.
  rewrite Hempty, (valid_not_illegal P Hv), andb_false_r.
  unfold reserved, reserve, with_arrays.
  destruct (annotate_charge P), (annotate_iso_peak_count P); simpl;
    rewrite ?Hempty, ?app_nil_r, <- ?app_assoc; try done.
  by destruct spec; simpl in *; subst.
Qed.

Lemma C9_empty_spectrum_witness :
  valid_isopeaks Scenario.overlap_params
  /\ peaks (mkSpectrum [] [] []) = []
  /\ deisotopeAndSingleCharge (K := Model.kernel) Scenario.overlap_params
       (mkSpectrum [] [] [])
     = (Returned,
        mkSpectrum [] [mkIDA "charge" []; mkIDA "iso_peak_count" []] []).
Proof.
  assert (Hv : valid_isopeaks Scenario.overlap_params)
    by (unfold valid_isopeaks; simpl; lia).
  split; [exact Hv|]. split; [reflexivity|].
  exact (C9_empty_spectrum (K := Model.kernel) Scenario.overlap_params
           (mkSpectrum [] [] []) Hv eq_refl).
Defined.

(** ** The routine on concrete spectra *)

(** C2, at the input [(100.0,1000),(101.0033548378,500),(110.0,10)] with
    charge 1, tolerance 0.01 Da and add_up_intensity: the seed at 100.0 is
    accepted in the high-intensity seed pass with the peak at 101.0034 and
    its accumulated intensity is 1500 when that pass ends; the loop over
    all peaks then stores the seed's own intensity again and skips the
    claimed seed, so the output intensity of the seed is 1000. *)
Lemma C2_seed_pass_sum_overwritten :
  accepted (seed_pass (K := Model.kernel)
              Scenario.doublet_params Scenario.doublet)
  = [mkGroup 0 1 [0; 1]]
  /\ mono_iso_peak_intensity
       (seed_pass (K := Model.kernel)
          Scenario.doublet_params Scenario.doublet) !! 0
     = Some 1500%float
  /\ accepted (discover (K := Model.kernel)
                 Scenario.doublet_params Scenario.doublet)
     = [mkGroup 0 1 [0; 1]]
  /\ mono_iso_peak_intensity
       (discover (K := Model.kernel)
          Scenario.doublet_params Scenario.doublet) !! 0
     = Some 1000%float
  /\ deisotopeAndSingleCharge (K := Model.kernel)
       Scenario.doublet_params Scenario.doublet
     = (Returned,
        mkSpectrum
          [mkPeak 100.0 1000; mkPeak 101.0033548378 500; mkPeak 110.0 10]
          [mkIDA "charge" [1; 0; 0]%Z; mkIDA "iso_peak_count" [2; 1; 1]%Z]
          []).
Proof. repeat split; vm_compute; reflexivity. Qed.

(** C3, at the input [(100.0,1000),(100.5,500),(101.5,5),(110.0,10)] with
    charge 2, tolerance 0.01 Da, keep_only_deisotoped and
    make_single_charged: the seed at 100.0 is accepted at charge 2 and its
    m/z is rewritten to 198.99 before the low m/z scan starts; the scan
    reads the rewritten value at index 0 and stops there, so the peaks at
    100.5 and 101.5, both below 154.0, are not selected and are missing
    from the output. *)
Lemma C3_low_mz_peaks_dropped :
  isSorted Scenario.low_mass = true
  /\ accepted (discover (K := Model.kernel)
                 Scenario.low_mass_params Scenario.low_mass)
     = [mkGroup 0 2 [0; 1]]
  /\ (selected (K := Model.kernel)
        Scenario.low_mass_params Scenario.low_mass).2 = [0]
  /\ final_select_idx (K := Model.kernel)
       Scenario.low_mass_params Scenario.low_mass = [0; 3]
  /\ map getIntensity
       (peaks (deisotopeAndSingleCharge (K := Model.kernel)
                 Scenario.low_mass_params Scenario.low_mass).2)
     = [10%float; 1000%float]
  /\ map (fun pk => PrimFloat.ltb (getMZ pk) preserve_low_mz_peaks_threshold)
       (peaks Scenario.low_mass)
     = [true; true; true; true].
Proof. repeat split; vm_compute; reflexivity. Qed.

(** C4, counterexample: on the three-peak spectrum with
    keep_only_deisotoped = false a group is formed: the peak at 100.0 is
    accepted at charge 1 with the peak at 101.0 as its first isotope, and
    the "charge" annotation of the output is 1 for it. *)
Lemma C4_group_is_formed :
  accepted (discover (K := Model.kernel)
              (Scenario.three_peaks_params false true true true true 2 false)
              Scenario.three_peaks)
  = [mkGroup 0 1 [0; 2]]
  /\ getIntegerDataArrays
       (deisotopeAndSingleCharge (K := Model.kernel)
          (Scenario.three_peaks_params false true true true true 2 false)
          Scenario.three_peaks).2
     = [mkIDA "charge" [1; 0; 0]%Z; mkIDA "iso_peak_count" [2; 1; 1]%Z].
Proof. split; vm_compute; reflexivity. Qed.

(** C4, amended: on the three-peak spectrum [(100.0,1000),(100.50,50),
    (101.0,900)] with charge 1, min_isopeaks 2, max_isopeaks 3 and
    tolerance 0.05 Da, whatever the other options are, exactly one group
    is formed: the peak at 100.0 with the peak at 101.0 (which lies within
    0.05 Da of 100.0 + 1.00335) at charge 1, the peak at 100.50 staying
    unassigned.  The first selection loop keeps the seed, and the
    unassigned peak too unless keep_only_deisotoped is set; the
    preservation rules add the rest, so all three peaks are in the
    output, m/z unchanged. *)
Theorem C4_three_peaks (keep_only_deisotoped make_single_charged
    annotate_charge annotate_iso_peak_count use_decreasing_model : bool)
    (start_intensity_check : nat) (add_up_intensity : bool) :
  let P := Scenario.three_peaks_params keep_only_deisotoped
             make_single_charged annotate_charge annotate_iso_peak_count
             use_decreasing_model start_intensity_check add_up_intensity in
  accepted (discover (K := Model.kernel) P Scenario.three_peaks)
  = [mkGroup 0 1 [0; 2]]
  /\ features (discover (K := Model.kernel) P Scenario.three_peaks)
     = [0; -1; 0]%Z
  /\ mono_isotopic_peak (discover (K := Model.kernel) P Scenario.three_peaks)
     = [1; 0; 0]%Z
  /\ (selected (K := Model.kernel) P Scenario.three_peaks).2
     = (if keep_only_deisotoped then [0] else [0; 1])
  /\ final_select_idx (K := Model.kernel) P Scenario.three_peaks = [0; 1; 2]
  /\ (deisotopeAndSingleCharge (K := Model.kernel) P Scenario.three_peaks).1
     = Returned
  /\ map getMZ
       (peaks (deisotopeAndSingleCharge (K := Model.kernel)
                 P Scenario.three_peaks).2)
     = [100.0%float; 100.5%float; 101.0%float].
Proof.
  destruct keep_only_deisotoped, make_single_charged, annotate_charge,
    annotate_iso_peak_count, use_decreasing_model, add_up_intensity;
    destruct start_intensity_check as [|[|k]];
    repeat split; vm_compute; reflexivity.
Qed.

(** ** Accumulated intensities *)

Lemma seed_pass_sum_lost_witness :
  add_up_intensity Scenario.doublet_params = true
  /\ mkGroup 0 1 [0; 1]
       ∈ accepted (seed_pass (K := Model.kernel)
                     Scenario.doublet_params Scenario.doublet)
  /\ mono_iso_peak_intensity
       (discover (K := Model.kernel)
          Scenario.doublet_params Scenario.doublet) !! 0
     = Some (getIntensity (peak Scenario.doublet 0)).
Proof.
  assert (Hg : mkGroup 0 1 [0; 1]
                 ∈ accepted (seed_pass (K := Model.kernel)
                               Scenario.doublet_params Scenario.doublet)).
  { apply list_elem_of_lookup. exists 0. vm_compute. reflexivity. }
  split; [reflexivity|]. split; [exact Hg|].
  exact (seed_pass_sum_lost (K := Model.kernel) Scenario.doublet_params
           Scenario.doublet (mkGroup 0 1 [0; 1]) eq_refl Hg).
Defined.

(** X2: with add_up_intensity, the groups accepted by the loop over all
    peaks come after those of the seed pass in the history, and the seed
    of each of them ends the discovery with the sum of the intensities of
    its run (its own intensity first, then each further peak of the run
    in order) as accumulated intensity. *)
Theorem exhaustive_pass_sum_kept `{K : Kernel} (P : Params)
    (spec : MSSpectrum) :
  add_up_intensity P = true ->
  exists later,
    accepted (discover P spec) = accepted (seed_pass P spec) ++ later
    /\ forall g, g ∈ later ->
         mono_iso_peak_intensity (discover P spec) !! seed g
         = Some (run_intensity spec (seed g) (members g)).
Proof.
  intros Hadd.
  destruct (exhaustive_upto_sums P spec (size spec) Hadd (le_n _))
    as (later & Hacc & Hlater).
  exists later. split; [done|].
  intros g Hg. by destruct (Hlater g Hg).
Qed.

Lemma exhaustive_pass_sum_kept_witness :
  add_up_intensity Scenario.overlap_sum_params = true
  /\ exists later,
       accepted (discover (K := Model.kernel)
                   Scenario.overlap_sum_params Scenario.overlap)
       = accepted (seed_pass (K := Model.kernel)
                     Scenario.overlap_sum_params Scenario.overlap) ++ later
       /\ forall g, g ∈ later ->
            mono_iso_peak_intensity
              (discover (K := Model.kernel)
                 Scenario.overlap_sum_params Scenario.overlap) !! seed g
            = Some (run_intensity Scenario.overlap (seed g) (members g)).
Proof.
  split; [reflexivity|].
  exact (exhaustive_pass_sum_kept (K := Model.kernel)
           Scenario.overlap_sum_params Scenario.overlap eq_refl).
Defined.

(** ** Annotation arrays *)

Lemma flat_map_singleton {A B} (f : A -> B) (g : A -> list B) (l : list A) :
  (forall x, g x = [f x]) -> flat_map g l = map f l.
Proof.
  intros Hg. induction l as [|x l IH]; simpl; [done|].
  by rewrite Hg, IH.
Qed.

(** X3: when the first selection loop ends, the "charge" array holds for
    every peak index, in order, the [(int)] cast of [mono_isotopic_peak]
    (0 for a peak that is no accepted seed), and the "iso_peak_count"
    array the [(int)] cast of [iso_peak_count]; each array is present when
    its option is set. *)
Theorem annotation_arrays `{K : Kernel} (P : Params) (spec : MSSpectrum) :
  let d := discover P (reserved P spec) in
  let arrays := getIntegerDataArrays (selected P spec).1 in
  (annotate_charge P = true ->
   arrays !! charge_index_of spec
   = Some (mkIDA "charge"
             (map (fun i => to_int (mono_isotopic_peak d !!! i))
                  (seq 0 (length (peaks spec))))))
  /\ (annotate_iso_peak_count P = true ->
      arrays !! iso_peak_count_index_of P spec
      = Some (mkIDA "iso_peak_count"
                (map (fun i => to_int (Z.of_nat (iso_peak_count d !!! i)))
                     (seq 0 (length (peaks spec)))))).
Proof.
  cbv zeta. unfold selected. split; intros Hon.
  - rewrite select_loop_arrays.
    unfold reserved, reserve, charge_index_of, iso_peak_count_index_of,
      with_arrays. rewrite Hon. simpl.
    assert (Hlook : forall tl,
      (getIntegerDataArrays spec ++ mkIDA "charge" [] :: tl)
        !! length (getIntegerDataArrays spec) = Some (mkIDA "charge" [])).
    { intros tl. by rewrite list_lookup_middle. }
    destruct (annotate_iso_peak_count P) eqn:Hipc; simpl.
    + rewrite <- app_assoc. simpl. rewrite Hlook. simpl.
      unfold extended_by. simpl. f_equal. f_equal.
      apply flat_map_singleton. intros i. unfold pushed.
      rewrite Hon, Hipc, Nat.eqb_refl, length_app. simpl.
      by destruct (Nat.eqb_spec (length (getIntegerDataArrays spec))
                     (length (getIntegerDataArrays spec) + 1)); [lia|].
    + rewrite Hlook. simpl. unfold extended_by. simpl. f_equal. f_equal.
      apply flat_map_singleton. intros i. unfold pushed.
      by rewrite Hon, Hipc, Nat.eqb_refl.
  - rewrite select_loop_arrays.
    unfold reserved, reserve, charge_index_of, iso_peak_count_index_of,
      with_arrays. rewrite Hon. simpl.
    destruct (annotate_charge P) eqn:Hch; simpl.
    + rewrite list_lookup_middle by done. simpl.
      unfold extended_by. simpl. f_equal. f_equal.
      apply flat_map_singleton. intros i. unfold pushed.
      rewrite Hon, Hch, Nat.eqb_refl, length_app. simpl.
      by destruct (Nat.eqb_spec (length (getIntegerDataArrays spec) + 1)
                     (length (getIntegerDataArrays spec))); [lia|].
    + rewrite list_lookup_middle by done. simpl.
      unfold extended_by. simpl. f_equal. f_equal.
      apply flat_map_singleton. intros i. unfold pushed.
      by rewrite Hon, Hch, Nat.eqb_refl.
Qed.

(** ** Low m/z peaks *)

Section LowMassFacts.
Context {K : Kernel}.
Variable P : Params.

Lemma push_if_absent_mono sel i j :
  j ∈ sel -> j ∈ push_if_absent sel i.
Proof.
  intros Hj. unfold push_if_absent.
  destruct (decide (i ∈ sel)); [done|]. apply elem_of_app. by left.
Qed.

Lemma push_if_absent_in sel i : i ∈ push_if_absent sel i.
Proof.
  unfold push_if_absent.
  destruct (decide (i ∈ sel)); [done|].
  apply elem_of_app. right. by apply list_elem_of_singleton.
Qed.

Lemma preserve_low_mono spec idx :
  forall sel j, j ∈ sel -> j ∈ preserve_low spec idx sel.
Proof.
  induction idx as [|i idx IH]; intros sel j Hj; simpl; [done|].
  destruct (PrimFloat.ltb _ _); [|done].
  by apply IH, push_if_absent_mono.
Qed.

(** The low m/z scan reaches index [j] when no peak up to [j] stops it. *)
Lemma preserve_low_reaches spec j m :
  forall s sel,
    s <= j < s + m ->
    (forall i, s <= i <= j ->
       PrimFloat.ltb (getMZ (peaks spec !!! i))
                     preserve_low_mz_peaks_threshold = true) ->
    j ∈ preserve_low spec (seq s m) sel.
Proof.
  induction m as [|m IH]; intros s sel Hj Hbelow; simpl; [lia|].
  rewrite Hbelow by lia.
  destruct (decide (j = s)) as [->|Hne].
  - apply preserve_low_mono, push_if_absent_in.
  - apply IH; [lia|]. intros i Hi. apply Hbelow. lia.
Qed.

Lemma alter_keeps_mz (f : Peak1D -> Peak1D) (pks : list Peak1D) (i k : nat) :
  (forall pk, getMZ (f pk) = getMZ pk) ->
  getMZ (alter f i pks !!! k) = getMZ (pks !!! k).
Proof.
  intros Hf. rewrite !list_lookup_total_alt, list_lookup_alter.
  destruct (decide (i = k)) as [->|]; [|done].
  destruct (pks !! k); simpl; [apply Hf | done].
Qed.

Lemma select_step_keeps_mz d ci ii spec sel i k :
  make_single_charged P = false ->
  getMZ (peaks (select_step P d ci ii (spec, sel) i).1 !!! k)
  = getMZ (peaks spec !!! k).
Proof.
  intros Hoff. unfold select_step. rewrite Hoff.
  set (s1 := annotate _ _ _ (annotate _ _ _ spec)).
  assert (H1 : peaks s1 = peaks spec).
  { unfold s1. by rewrite !annotate_peaks. }
  set (s2 := if add_up_intensity P then _ else s1).
  assert (H2 : getMZ (peaks s2 !!! k) = getMZ (peaks spec !!! k)).
  { unfold s2. destruct (add_up_intensity P); [|by rewrite H1].
    simpl. rewrite alter_keeps_mz by done. by rewrite H1. }
  destruct (negb _ && _); simpl; [done|].
  by destruct (_ =? 0)%Z.
Qed.

Lemma select_loop_keeps_mz d ci ii spec n k :
  make_single_charged P = false ->
  getMZ (peaks (foldl (select_step P d ci ii) (spec, []) (seq 0 n)).1 !!! k)
  = getMZ (peaks spec !!! k).
Proof.
  intros Hoff. induction n as [|n IH]; [done|].
  rewrite seq_S, foldl_snoc. simpl.
  destruct (foldl _ _ _) as [spec' sel]. simpl in IH.
  by rewrite select_step_keeps_mz.
Qed.

End LowMassFacts.

Lemma gather_elem {A} (l : list A) (idx : list nat) (i : nat) (x : A) :
  i ∈ idx -> l !! i = Some x -> x ∈ gather l idx.
Proof.
  intros Hi Hx. unfold gather. apply list_elem_of_omap. by exists i.
Qed.

Lemma insert_by_mz_elem pks i sorted k :
  k ∈ insert_by_mz pks i sorted <-> k = i \/ k ∈ sorted.
Proof.
  induction sorted as [|j r IH]; simpl.
  - rewrite list_elem_of_singleton. split; [by left|].
    intros [->|Hk]; [done|]. by apply not_elem_of_nil in Hk.
  - destruct (PrimFloat.ltb _ _).
    + by rewrite elem_of_cons.
    + rewrite !elem_of_cons, IH. tauto.
Qed.

Lemma sorted_order_complete pks k :
  k < length pks -> k ∈ sorted_order pks.
Proof.
  intros Hk. unfold sorted_order.
  assert (H : forall l, k ∈ l -> k ∈ foldr (insert_by_mz pks) [] l).
  { induction l as [|i l IH]; simpl; [done|].
    rewrite elem_of_cons, insert_by_mz_elem. intros [->|Hl]; auto. }
  apply H, elem_of_seq. lia.
Qed.

(** Sorting by position keeps every peak. *)
Lemma sortByPosition_elem s pk :
  pk ∈ peaks s -> pk ∈ peaks (sortByPosition s).
Proof.
  intros Hpk. apply list_elem_of_lookup in Hpk as [k Hk].
  unfold sortByPosition, select. simpl.
  apply (gather_elem _ _ k); [|done].
  apply sorted_order_complete, lookup_lt_is_Some. eauto.
Qed.

(** A selected index of the spectrum has its peak in the output. *)
Lemma selected_peak_in_output idx s j :
  j ∈ idx -> j < length (peaks s) ->
  peaks s !!! j ∈ peaks (sortByPosition (select idx s)).
Proof.
  intros Hj Hlt. apply sortByPosition_elem. unfold select. simpl.
  apply (gather_elem _ _ j); [done|].
  by apply list_lookup_lookup_total_lt.
Qed.

(** X4: when make_single_charged is off, a peak is in the index set handed
    to [select], and in the output peak list, whenever it and every peak
    before it have an m/z below 154.0; on a spectrum sorted by m/z these
    are the peaks below 154.0. *)
Theorem low_mz_prefix_kept `{K : Kernel} (P : Params) (spec : MSSpectrum)
    (j : nat) :
  make_single_charged P = false ->
  j < length (peaks spec) ->
  (forall i, i <= j ->
     PrimFloat.ltb (getMZ (peaks spec !!! i))
                   preserve_low_mz_peaks_threshold = true) ->
  j ∈ final_select_idx P spec
  /\ peaks (selected P spec).1 !!! j
     ∈ peaks (sortByPosition
                (select (final_select_idx P spec) (selected P spec).1))
  /\ getMZ (peaks (selected P spec).1 !!! j) = getMZ (peaks spec !!! j).
Proof.
  intros Hoff Hj Hbelow.
  assert (Hmz : forall k,
    getMZ (peaks (selected P spec).1 !!! k) = getMZ (peaks spec !!! k)).
  { intros k. unfold selected. rewrite select_loop_keeps_mz by done.
    unfold reserved, reserve.
    by destruct (annotate_charge P), (annotate_iso_peak_count P). }
  assert (Hin : j ∈ final_select_idx P spec).
  { unfold final_select_idx.
    destruct (selected P spec) as [spec' sel]. simpl in Hmz.
    apply preserve_low_reaches; [lia|].
    intros i Hi. rewrite Hmz. apply Hbelow. lia. }
  split; [done|]. split; [|done].
  apply selected_peak_in_output; [done|].
  by rewrite selected_peaks_length.
Qed.

Lemma low_mz_prefix_kept_witness :
  make_single_charged Scenario.overlap_params = false
  /\ 2 < length (peaks Scenario.overlap)
  /\ (forall i, i <= 2 ->
        PrimFloat.ltb (getMZ (peaks Scenario.overlap !!! i))
                      preserve_low_mz_peaks_threshold = true)
  /\ 2 ∈ final_select_idx (K := Model.kernel)
           Scenario.overlap_params Scenario.overlap.
Proof.
  assert (Hlen : 2 < length (peaks Scenario.overlap)) by (simpl; lia).
  assert (Hbelow : forall i, i <= 2 ->
            PrimFloat.ltb (getMZ (peaks Scenario.overlap !!! i))
                          preserve_low_mz_peaks_threshold = true).
  { intros [|[|[|i]]] Hi; [reflexivity | reflexivity | reflexivity | lia]. }
  split; [reflexivity|]. split; [exact Hlen|]. split; [exact Hbelow|].
  exact (proj1 (low_mz_prefix_kept (K := Model.kernel)
                  Scenario.overlap_params Scenario.overlap 2
                  eq_refl Hlen Hbelow)).
Defined.

(** ** The working vectors follow the history of accepted groups *)

Section TrackingFacts.
Context {K : Kernel}.
Variable P : Params.
Variable old_spectrum : MSSpectrum.

Abbreviation n := (size old_spectrum).
Abbreviation consistent := (consistent P old_spectrum).
Abbreviation tracked := (tracked P old_spectrum).

Lemma extend_count_bound pass cp q B todo :
  forall i ext ipc,
    Forall (fun c => 1 <= c <= B) ipc ->
    i + todo <= B ->
    Forall (fun c => 1 <= c <= B)
           (extend P old_spectrum pass cp q todo i ext ipc).1.2.
Proof.
  induction todo as [|todo IH]; intros i ext ipc Hipc Hb; simpl; [done|].
  destruct (findNearest _ _ _) as [p|]; [|done].
  destruct (decreasing_violated _ _ _ _ _); [done|].
  destruct (satellite _ _ _ _); [done|].
  destruct (noise _ _ _ _ _); [done|].
  apply IH; [|lia].
  destruct (annotate_iso_peak_count P); [|done].
  apply Forall_insert; [done|lia].
Qed.

Lemma run_count_bound pass cp q ipc :
  Forall (fun c => 1 <= c <= Nat.max 1 (max_isopeaks P)) ipc ->
  Forall (fun c => 1 <= c <= Nat.max 1 (max_isopeaks P))
         (run P old_spectrum pass cp q ipc).1.2.
Proof. intros H. apply extend_count_bound; [done|lia]. Qed.

Lemma unclaimed_snoc log g i :
  unclaimed log i -> i ∉ members g -> unclaimed (log ++ [g]) i.
Proof.
  intros Hlog Hg g' Hg'. apply elem_of_app in Hg' as [Hg'|Hg'].
  - by apply Hlog.
  - by apply list_elem_of_singleton in Hg' as ->.
Qed.

Lemma last_claimed_by_new log g i :
  i ∈ members g -> last_claimed_by (log ++ [g]) i (length log).
Proof.
  intros Hi. exists g. split; [by apply list_lookup_middle|].
  split; [done|]. intros k' g' Hk Hg'.
  apply lookup_lt_Some in Hg'. rewrite length_app in Hg'. simpl in Hg'. lia.
Qed.

Lemma last_claimed_by_snoc log g i k :
  last_claimed_by log i k -> i ∉ members g ->
  last_claimed_by (log ++ [g]) i k.
Proof.
  intros (g0 & Hk & Hi & Hlast) Hg. exists g0.
  split; [by apply lookup_app_l_Some|]. split; [done|].
  intros k' g' Hlt Hg'.
  apply lookup_snoc_Some in Hg' as [[_ Hg']|[_ <-]]; [by eapply Hlast|done].
Qed.

Lemma try_charge_tracked pass cp st q :
  cp < n -> (min_charge P <= q <= max_charge P)%Z ->
  consistent st -> tracked st ->
  tracked (try_charge P old_spectrum pass cp st q).
Proof.
  intros Hcp Hq Hc Ht. unfold try_charge.
  destruct (features st !!! cp =? -1)%Z eqn:Hun; [|done].
  destruct (pruned _ _ _ _); [done|].
  pose proof (run_count_bound pass cp q (iso_peak_count st)
                (tr_count _ _ _ Ht)) as Hbound.
  destruct (run _ _ _ _ _ _) as [[ext ipc] ok] eqn:Hrun.
  simpl in Hbound.
  destruct Ht as [Hnum Hfeat Hmono Hch Hcnt].
  destruct Hc as [Hlf Hlm _ _ _ _].
  destruct ok; [|by constructor].
  constructor; simpl.
  - rewrite length_app. simpl. lia.
  - intros i Hi. destruct (decide (i ∈ ext)) as [Hin|Hout].
    + right. exists (length (accepted st)).
      split; [rewrite claim_lookup_in; [done|done|lia]|].
      by apply last_claimed_by_new.
    + rewrite claim_lookup_notin by done.
      destruct (Hfeat i Hi) as [[Hf Hu]|(k & Hf & Hl)].
      * left. split; [done|]. by apply unclaimed_snoc.
      * right. exists k. split; [done|]. by apply last_claimed_by_snoc.
  - intros i Hi. destruct (decide (i = cp)) as [->|Hne].
    + right. exists (mkGroup cp q ext).
      split; [apply elem_of_app; right; by apply list_elem_of_singleton|].
      split; [done|]. simpl. apply list_lookup_total_insert_eq. lia.
    + rewrite list_lookup_total_insert_ne by done.
      destruct (Hmono i Hi) as [Hz|(g & Hg & Hs & Hm)]; [by left|].
      right. exists g. split; [apply elem_of_app; by left|done].
  - intros g Hg. apply elem_of_app in Hg as [Hg|Hg]; [by apply Hch|].
    by apply list_elem_of_singleton in Hg as ->.
  - done.
Qed.

Lemma reset_intensity_tracked cp st :
  tracked st -> tracked (reset_intensity P old_spectrum cp st).
Proof.
  intros Ht. unfold reset_intensity.
  destruct (add_up_intensity P); [|done].
  destruct Ht. by constructor.
Qed.

Lemma charges_in_range q :
  q ∈ charges P -> (min_charge P <= q <= max_charge P)%Z.
Proof.
  unfold charges. rewrite list_elem_of_In, in_map_iff.
  intros (k & <- & Hk). apply in_seq in Hk. lia.
Qed.

Lemma seed_step_tracked pass st cp :
  cp < n -> consistent st -> tracked st ->
  consistent (seed_step P old_spectrum pass st cp)
  /\ tracked (seed_step P old_spectrum pass st cp).
Proof.
  intros Hcp Hc Ht. unfold seed_step.
  apply (foldl_invariant (fun st' => consistent st' /\ tracked st')).
  - split; [by apply reset_intensity_consistent
           | by apply reset_intensity_tracked].
  - intros st' q Hq [Hc' Ht']. split.
    + by apply try_charge_consistent.
    + apply try_charge_tracked; try done. by apply charges_in_range.
Qed.

Lemma initial_tracked : tracked (initial old_spectrum).
Proof.
  constructor; simpl; try done.
  - intros i Hi. left. split.
    + by apply lookup_total_replicate_2.
    + intros g Hg. by apply not_elem_of_nil in Hg.
  - intros i Hi. left. by apply lookup_total_replicate_2.
  - intros g Hg. by apply not_elem_of_nil in Hg.
  - apply Forall_replicate. lia.
Qed.

Lemma seed_pass_tracked : tracked (seed_pass P old_spectrum).
Proof.
  unfold seed_pass.
  apply (foldl_invariant (fun st => consistent st /\ tracked st)).
  - split; [apply initial_consistent | apply initial_tracked].
  - intros st cp Hcp [Hc Ht]. apply seed_step_tracked; try done.
    by apply high_intensity_peaks_range.
Qed.

Lemma discover_tracked : tracked (discover P old_spectrum).
Proof.
  unfold discover.
  apply (foldl_invariant (fun st => consistent st /\ tracked st)).
  - split; [apply seed_pass_consistent | apply seed_pass_tracked].
  - intros st cp Hcp [Hc Ht]. apply seed_step_tracked; try done.
    apply elem_of_seq in Hcp. lia.
Qed.

End TrackingFacts.

(** ** Which indices are selected *)

Section KeptFacts.
Context {K : Kernel}.
Variable P : Params.

Lemma select_step_kept d ci ii spec sel i :
  (select_step P d ci ii (spec, sel) i).2
  = if kept_by_loop P d i then sel ++ [i] else sel.
Proof.
  unfold select_step, kept_by_loop.
  destruct (negb _ && _); simpl; [done|].
  by destruct (_ =? 0)%Z.
Qed.

Lemma select_loop_kept d ci ii spec k :
  (foldl (select_step P d ci ii) (spec, []) (seq 0 k)).2
  = List.filter (kept_by_loop P d) (seq 0 k).
Proof.
  induction k as [|k IH]; [done|].
  rewrite seq_S, foldl_snoc, List.filter_app. simpl.
  destruct (foldl _ _ _) as [spec' sel]. simpl in IH.
  rewrite select_step_kept, IH.
  destruct (kept_by_loop P d k); [done | by rewrite app_nil_r].
Qed.

Lemma push_if_absent_elem sel i j :
  j ∈ push_if_absent sel i <-> j ∈ sel \/ j = i.
Proof.
  unfold push_if_absent. destruct (decide (i ∈ sel)) as [Hin|Hout].
  - split; [by left|]. intros [Hj| ->]; done.
  - by rewrite elem_of_app, list_elem_of_singleton.
Qed.

Lemma preserve_high_elem high sel j :
  j ∈ preserve_high high sel <-> j ∈ sel \/ j ∈ high.
Proof.
  unfold preserve_high. revert sel.
  induction high as [|i high IH]; intros sel; simpl.
  - split; [by left|]. intros [Hj|Hj]; [done|].
    by apply not_elem_of_nil in Hj.
  - rewrite IH, push_if_absent_elem, elem_of_cons. tauto.
Qed.

Lemma preserve_low_elem spec j m :
  forall s sel,
    j ∈ preserve_low spec (seq s m) sel
    <-> j ∈ sel
        \/ (s <= j < s + m
            /\ forall i, s <= i <= j ->
                 PrimFloat.ltb (getMZ (peaks spec !!! i))
                               preserve_low_mz_peaks_threshold = true).
Proof.
  induction m as [|m IH]; intros s sel; simpl.
  { split; [by left|]. intros [Hj|[Hj _]]; [done|lia]. }
  destruct (PrimFloat.ltb (getMZ (peaks spec !!! s)) _) eqn:Hs.
  - rewrite IH, push_if_absent_elem. split.
    + intros [[Hj| ->]|[Hj Hb]].
      * by left.
      * right. split; [lia|]. intros i Hi. by replace i with s by lia.
      * right. split; [lia|]. intros i Hi.
        destruct (decide (i = s)) as [->|]; [done|]. apply Hb. lia.
    + intros [Hj|[Hj Hb]]; [by left; left|].
      destruct (decide (j = s)) as [->|]; [by left; right|].
      right. split; [lia|]. intros i Hi. apply Hb. lia.
  - split; [by left|]. intros [Hj|[Hj Hb]]; [done|].
    rewrite Hb in Hs by lia. done.
Qed.

End KeptFacts.

(** ** Feature ids and annotation values *)

(** X5: when the discovery ends, [feature_number] is the number of
    accepted groups, and for every peak index [features] holds -1 exactly
    when no accepted group contains the peak, and otherwise the number of
    the last accepted group that contains it (a later claim overwrites an
    earlier one). *)
Theorem feature_id_last_claim `{K : Kernel} (P : Params) (spec : MSSpectrum)
    (i : nat) :
  i < size spec ->
  feature_number (discover P spec)
  = Z.of_nat (length (accepted (discover P spec)))
  /\ ((features (discover P spec) !!! i = (-1)%Z
       /\ unclaimed (accepted (discover P spec)) i)
      \/ (exists k, features (discover P spec) !!! i = Z.of_nat k
                    /\ last_claimed_by (accepted (discover P spec)) i k)).
Proof.
  intros Hi. destruct (discover_tracked P spec) as [Hn Hf _ _ _].
  split; [done | by apply Hf].
Qed.

Lemma feature_id_last_claim_witness :
  2 < size Scenario.overlap
  /\ feature_number (discover (K := Model.kernel)
                       Scenario.overlap_params Scenario.overlap)
     = Z.of_nat (length (accepted (discover (K := Model.kernel)
                            Scenario.overlap_params Scenario.overlap)))
  /\ ((features (discover (K := Model.kernel)
                   Scenario.overlap_params Scenario.overlap) !!! 2 = (-1)%Z
       /\ unclaimed (accepted (discover (K := Model.kernel)
                        Scenario.overlap_params Scenario.overlap)) 2)
      \/ (exists k,
            features (discover (K := Model.kernel)
                        Scenario.overlap_params Scenario.overlap) !!! 2
            = Z.of_nat k
            /\ last_claimed_by
                 (accepted (discover (K := Model.kernel)
                              Scenario.overlap_params Scenario.overlap))
                 2 k)).
Proof.
  assert (Hs : 2 < size Scenario.overlap) by (vm_compute; lia).
  split; [exact Hs|].
  exact (feature_id_last_claim (K := Model.kernel) Scenario.overlap_params
           Scenario.overlap 2 Hs).
Defined.

(** X6: when the discovery ends, the stored charge of a peak is 0 unless
    the peak is the seed of an accepted group, in which case it is the
    charge of that group, a charge of the search range; every
    [iso_peak_count] value lies between 1 and max_isopeaks (1 when
    max_isopeaks is 0). *)
Theorem annotation_values `{K : Kernel} (P : Params) (spec : MSSpectrum)
    (i : nat) :
  i < size spec ->
  (mono_isotopic_peak (discover P spec) !!! i = 0%Z
   \/ exists g, g ∈ accepted (discover P spec) /\ seed g = i
        /\ mono_isotopic_peak (discover P spec) !!! i = to_size_t (charge g)
        /\ (min_charge P <= charge g <= max_charge P)%Z)
  /\ 1 <= iso_peak_count (discover P spec) !!! i
     <= Nat.max 1 (max_isopeaks P).
Proof.
  intros Hi. destruct (discover_tracked P spec) as [_ _ Hm Hc Hcnt].
  destruct (discover_consistent P spec) as [_ _ Hlen _ _ _].
  split.
  - destruct (Hm i Hi) as [Hz|(g & Hg & Hs & Hv)]; [by left|].
    right. exists g. repeat split; try done; by apply Hc.
  - rewrite Forall_forall in Hcnt. apply Hcnt.
    apply list_elem_of_lookup_total_2. by rewrite Hlen.
Qed.

Lemma annotation_values_witness :
  1 < size Scenario.overlap
  /\ (mono_isotopic_peak (discover (K := Model.kernel)
                            Scenario.overlap_params Scenario.overlap) !!! 1
      = 0%Z
      \/ exists g,
           g ∈ accepted (discover (K := Model.kernel)
                           Scenario.overlap_params Scenario.overlap)
           /\ seed g = 1
           /\ mono_isotopic_peak
                (discover (K := Model.kernel)
                   Scenario.overlap_params Scenario.overlap) !!! 1
              = to_size_t (charge g)
           /\ (min_charge Scenario.overlap_params <= charge g
               <= max_charge Scenario.overlap_params)%Z)
  /\ 1 <= iso_peak_count (discover (K := Model.kernel)
                            Scenario.overlap_params Scenario.overlap) !!! 1
     <= Nat.max 1 (max_isopeaks Scenario.overlap_params).
Proof.
  assert (Hs : 1 < size Scenario.overlap) by (vm_compute; lia).
  split; [exact Hs|].
  exact (annotation_values (K := Model.kernel) Scenario.overlap_params
           Scenario.overlap 1 Hs).
Defined.

(** ** The selected indices in terms of the accepted groups *)

Lemma reserved_peaks (P : Params) (spec : MSSpectrum) :
  peaks (reserved P spec) = peaks spec.
Proof.
  unfold reserved, reserve.
  by destruct (annotate_charge P), (annotate_iso_peak_count P).
Qed.

Lemma filter_strongly_sorted {A} (R : A -> A -> Prop) (f : A -> bool)
    (l : list A) :
  StronglySorted R l -> StronglySorted R (List.filter f l).
Proof.
  induction 1 as [|x l Hl IH Hx]; simpl; [constructor|].
  destruct (f x); [|done]. constructor; [done|].
  apply Forall_forall. intros y Hy.
  apply list_elem_of_In, filter_In in Hy as [Hy _].
  rewrite Forall_forall in Hx. by apply Hx, list_elem_of_In.
Qed.

Lemma seq_strongly_sorted m : forall s, StronglySorted lt (seq s m).
Proof.
  induction m as [|m IH]; intros s; simpl; constructor; [apply IH|].
  apply Forall_forall. intros j Hj. apply elem_of_seq in Hj. lia.
Qed.

Section GroupSelectionFacts.
Context {K : Kernel}.
Variable P : Params.
Variable old_spectrum : MSSpectrum.

Abbreviation d := (discover P old_spectrum).

Lemma unassigned_iff_unclaimed i :
  i < size old_spectrum ->
  (features d !!! i <? 0)%Z = true <-> unclaimed (accepted d) i.
Proof.
  intros Hi. destruct (discover_tracked P old_spectrum) as [_ Hf _ _ _].
  destruct (Hf i Hi) as [[-> Hu]|(k & -> & g & Hk & Hin & _)].
  - by split.
  - split; [intros Hlt; apply Z.ltb_lt in Hlt; lia|].
    intros Hu. exfalso. apply (Hu g); [|done].
    apply list_elem_of_lookup. by exists k.
Qed.

Lemma charged_is_claimed i :
  i < size old_spectrum ->
  mono_isotopic_peak d !!! i <> 0%Z -> ~ unclaimed (accepted d) i.
Proof.
  intros Hi Hz Hu.
  destruct (discover_tracked P old_spectrum) as [_ _ Hm _ _].
  destruct (discover_consistent P old_spectrum) as [_ _ _ _ Hok _].
  destruct (Hm i Hi) as [?|(g & Hg & Hs & _)]; [done|].
  rewrite Forall_forall in Hok.
  destruct (ok_head _ _ _ _ (Hok g Hg)) as [rest Hhead].
  apply (Hu g Hg). rewrite Hhead, Hs. left.
Qed.

Lemma accepted_seed_charge g :
  (1 <= min_charge P)%Z -> (max_charge P < 2 ^ 31)%Z ->
  g ∈ accepted d ->
  seed g < size old_spectrum
  /\ mono_isotopic_peak d !!! seed g = charge g
  /\ (1 <= charge g < 2 ^ 31)%Z.
Proof.
  intros Hmin Hmax Hg.
  destruct (discover_tracked P old_spectrum) as [_ _ _ Hc _].
  destruct (discover_consistent P old_spectrum) as [_ _ _ _ Hok _].
  rewrite Forall_forall in Hok.
  destruct (Hok g Hg) as [Hseed _ _ Hch _ _].
  pose proof (Hc g Hg) as Hrange.
  split; [done|]. split; [|lia].
  rewrite (list_lookup_total_correct _ _ _ Hch).
  unfold to_size_t. apply Z.mod_small. lia.
Qed.

End GroupSelectionFacts.

(** X7: the index list built by the first selection loop is strictly
    increasing, and it holds a peak index exactly when
    keep_only_deisotoped is off and no accepted group contains the peak,
    or the stored charge of the peak is not 0: the further peaks of an
    accepted run are not selected by this loop, whatever
    keep_only_deisotoped is. *)
Theorem main_selection `{K : Kernel} (P : Params) (spec : MSSpectrum) :
  let d := discover P (reserved P spec) in
  StronglySorted lt (selected P spec).2
  /\ forall i,
       i ∈ (selected P spec).2
       <-> i < length (peaks spec)
           /\ ((keep_only_deisotoped P = false /\ unclaimed (accepted d) i)
               \/ mono_isotopic_peak d !!! i <> 0%Z).
Proof.
  cbv zeta. unfold selected. rewrite select_loop_kept.
  split; [apply filter_strongly_sorted, seq_strongly_sorted|].
  intros i. rewrite list_elem_of_In, filter_In, in_seq.
  assert (Hsize : size (reserved P spec) = length (peaks spec)).
  { unfold size. by rewrite reserved_peaks. }
  split.
  - intros [Hi Hk]. split; [lia|].
    unfold kept_by_loop in Hk.
    apply orb_true_iff in Hk as [Hk|Hk].
    + apply andb_true_iff in Hk as [Hko Hf]. left.
      split; [by apply negb_true_iff|].
      apply unassigned_iff_unclaimed; [lia|done].
    + right. apply negb_true_iff, Z.eqb_neq in Hk. done.
  - intros [Hi [[Hko Hu]|Hz]]; (split; [lia|]); unfold kept_by_loop.
    + apply orb_true_iff. left. rewrite Hko. simpl.
      apply unassigned_iff_unclaimed; [lia|done].
    + apply orb_true_iff. right. by apply negb_true_iff, Z.eqb_neq.
Qed.

(** X8: an index is handed to [select] exactly when the first selection
    loop selected it, or the WindowMower filter retained its peak, or the
    low m/z scan reached it: the peak and every peak before it have, after
    the rewriting of the first loop, an m/z below 154.0. *)
Theorem final_selection `{K : Kernel} (P : Params) (spec : MSSpectrum)
    (j : nat) :
  j ∈ final_select_idx P spec
  <-> j ∈ (selected P spec).2
      \/ j ∈ high_intensity_peaks (reserved P spec)
      \/ (j < length (peaks spec)
          /\ forall i, i <= j ->
               PrimFloat.ltb (getMZ (peaks (selected P spec).1 !!! i))
                             preserve_low_mz_peaks_threshold = true).
Proof.
  unfold final_select_idx. destruct (selected P spec) as [spec' sel].
  rewrite preserve_low_elem, preserve_high_elem. simpl.
  split.
  - intros [[Hj|Hj]|[Hj Hb]]; [by left | by right; left|].
    right. right. split; [lia|]. intros i Hi. apply Hb. lia.
  - intros [Hj|[Hj|[Hj Hb]]]; [by left; left | by left; right|].
    right. split; [lia|]. intros i Hi. apply Hb. lia.
Qed.

(** X9: for a charge range within 1 .. 2^31 - 1, the seed of every
    accepted group is selected by the first selection loop and handed to
    [select], its peak is in the output peak list, and the value written
    for it to the "charge" array, the [(int)] cast of its stored charge,
    is the charge of the group. *)
Theorem accepted_seed_kept `{K : Kernel} (P : Params) (spec : MSSpectrum)
    (g : Group) :
  (1 <= min_charge P)%Z -> (max_charge P < 2 ^ 31)%Z ->
  g ∈ accepted (discover P (reserved P spec)) ->
  seed g ∈ (selected P spec).2
  /\ seed g ∈ final_select_idx P spec
  /\ peaks (selected P spec).1 !!! seed g
     ∈ peaks (sortByPosition
                (select (final_select_idx P spec) (selected P spec).1))
  /\ to_int (mono_isotopic_peak (discover P (reserved P spec)) !!! seed g)
     = charge g.
Proof.
  intros Hmin Hmax Hg.
  destruct (accepted_seed_charge P (reserved P spec) g Hmin Hmax Hg)
    as (Hseed & Hch & Hrange).
  assert (Hsize : size (reserved P spec) = length (peaks spec)).
  { unfold size. by rewrite reserved_peaks. }
  assert (Hsel : seed g ∈ (selected P spec).2).
  { unfold selected. rewrite select_loop_kept.
    apply list_elem_of_In, filter_In. split; [apply in_seq; lia|].
    unfold kept_by_loop. rewrite Hch.
    apply orb_true_iff. right. apply negb_true_iff, Z.eqb_neq. lia. }
  assert (Hfin : seed g ∈ final_select_idx P spec).
  { unfold final_select_idx. destruct (selected P spec) as [spec' sel].
    apply preserve_low_mono, preserve_high_elem. by left. }
  split; [done|]. split; [done|]. split.
  - apply selected_peak_in_output; [done|].
    rewrite selected_peaks_length. lia.
  - rewrite Hch. unfold to_int.
    rewrite Z.mod_small by lia. lia.
Qed.

Lemma accepted_seed_kept_witness :
  (1 <= min_charge Scenario.overlap_params)%Z
  /\ (max_charge Scenario.overlap_params < 2 ^ 31)%Z
  /\ mkGroup 1 1 [1; 2]
       ∈ accepted (discover (K := Model.kernel) Scenario.overlap_params
                     (reserved Scenario.overlap_params Scenario.overlap))
  /\ 1 ∈ (selected (K := Model.kernel)
            Scenario.overlap_params Scenario.overlap).2
  /\ 1 ∈ final_select_idx (K := Model.kernel)
           Scenario.overlap_params Scenario.overlap.
Proof.
  assert (Hmin : (1 <= min_charge Scenario.overlap_params)%Z)
    by (simpl; lia).
  assert (Hmax : (max_charge Scenario.overlap_params < 2 ^ 31)%Z)
    by (simpl; lia).
  assert (Hg : mkGroup 1 1 [1; 2]
       ∈ accepted (discover (K := Model.kernel) Scenario.overlap_params
                     (reserved Scenario.overlap_params Scenario.overlap))).
  { apply list_elem_of_lookup. exists 1. vm_compute. reflexivity. }
  split; [exact Hmin|]. split; [exact Hmax|]. split; [exact Hg|].
  pose proof (accepted_seed_kept (K := Model.kernel) Scenario.overlap_params
                Scenario.overlap (mkGroup 1 1 [1; 2]) Hmin Hmax Hg)
    as (Hsel & Hfin & _).
  split; [exact Hsel | exact Hfin].
Defined.

(** ** The peaks after the first selection loop *)

Section RewritingFacts.
Context {K : Kernel}.
Variable P : Params.
Variable d : Discovery.
Variables charge_index iso_peak_count_index : nat.

Lemma select_step_peaks spec sel i k :
  peaks (select_step P d charge_index iso_peak_count_index (spec, sel) i).1
    !! k
  = if decide (k = i) then rewritten P d i <$> peaks spec !! k
    else peaks spec !! k.
Proof.
  unfold select_step, rewritten.
  set (s1 := annotate _ _ _ (annotate _ _ _ spec)).
  assert (H1 : peaks s1 = peaks spec).
  { unfold s1. by rewrite !annotate_peaks. }
  destruct (decide (k = i)) as [->|Hne].
  - destruct (add_up_intensity P); simpl;
      destruct (negb _ && _); simpl;
      try destruct (_ =? 0)%Z; simpl;
      try destruct (make_single_charged P); simpl;
      rewrite ?list_lookup_alter_eq, ?H1;
      by destruct (peaks spec !! i).
  - destruct (add_up_intensity P); simpl;
      destruct (negb _ && _); simpl;
      try destruct (_ =? 0)%Z; simpl;
      try destruct (make_single_charged P); simpl;
      rewrite ?list_lookup_alter_ne, ?H1 by done; done.
Qed.

Lemma select_loop_peaks spec n k :
  peaks (foldl (select_step P d charge_index iso_peak_count_index)
               (spec, []) (seq 0 n)).1 !! k
  = if decide (k < n) then rewritten P d k <$> peaks spec !! k
    else peaks spec !! k.
Proof.
  induction n as [|n IH].
  { simpl. by destruct (decide (k < 0)); [lia|]. }
  rewrite seq_S, foldl_snoc. simpl.
  destruct (foldl _ _ _) as [spec' sel]. simpl in IH.
  rewrite select_step_peaks, IH.
  destruct (decide (k = n)) as [->|Hne].
  - destruct (decide (n < n)); [lia|].
    by destruct (decide (n < S n)); [|lia].
  - destruct (decide (k < n)), (decide (k < S n)); done || lia.
Qed.

End RewritingFacts.

Lemma gather_subset {A} (l : list A) (idx : list nat) (x : A) :
  x ∈ gather l idx -> x ∈ l.
Proof.
  unfold gather. rewrite list_elem_of_omap.
  intros (i & _ & Hi). by eapply list_elem_of_lookup_2.
Qed.

Lemma selected_peak `{K : Kernel} (P : Params) (spec : MSSpectrum)
    (i : nat) :
  i < length (peaks spec) ->
  peaks (selected P spec).1 !!! i
  = rewritten P (discover P (reserved P spec)) i (peaks spec !!! i).
Proof.
  intros Hi. apply list_lookup_total_correct.
  unfold selected. rewrite select_loop_peaks.
  destruct (decide (i < length (peaks spec))); [|lia].
  rewrite reserved_peaks.
  by rewrite (list_lookup_lookup_total_lt (peaks spec) i Hi).
Qed.



(** X11: with make_single_charged and add_up_intensity both off the
    routine only filters: the first selection loop leaves the peak list
    as it is, and every peak of the spectrum handed back is a peak of the
    input spectrum. *)
Theorem pure_filter `{K : Kernel} (P : Params) (spec : MSSpectrum) :
  make_single_charged P = false ->
  add_up_intensity P = false ->
  peaks (selected P spec).1 = peaks spec
  /\ forall pk, pk ∈ peaks (deisotopeAndSingleCharge P spec).2 ->
       pk ∈ peaks spec.
Proof.
  intros Hms Hadd.
  assert (Hsame : peaks (selected P spec).1 = peaks spec).
  { apply list_eq. intros k. unfold selected.
    rewrite select_loop_peaks, reserved_peaks.
    destruct (decide (k < length (peaks spec))); [|done].
    destruct (peaks spec !! k) as [pk|]; [|done]. simpl. f_equal.
    unfold rewritten. rewrite Hms, Hadd.
    destruct (negb _ && _); [done|]. by destruct (_ =? 0)%Z. }
  split; [done|]. intros pk.
  unfold deisotopeAndSingleCharge.
  destruct (assertions && negb (isSorted spec)); [done|].
  destruct (illegal_isopeaks P); [done|].
  destruct (peaks spec) as [|pk0 pks] eqn:Hpk.
  - simpl. by rewrite reserved_peaks, Hpk.
  - cbn [snd]. unfold sortByPosition. intros Hin.
    apply gather_subset, gather_subset in Hin. by rewrite Hsame in Hin.
Qed.

Lemma pure_filter_witness :
  make_single_charged Scenario.overlap_params = false
  /\ add_up_intensity Scenario.overlap_params = false
  /\ peaks (selected (K := Model.kernel)
              Scenario.overlap_params Scenario.overlap).1
     = peaks Scenario.overlap.
Proof.
  split; [reflexivity|]. split; [reflexivity|].
  exact (proj1 (pure_filter (K := Model.kernel) Scenario.overlap_params
                  Scenario.overlap eq_refl eq_refl)).
Defined.

(** ** The rows of the output *)

Lemma gather_fmap {A B} (f : A -> B) (l : list A) (idx : list nat) :
  gather (f <$> l) idx = f <$> gather l idx.
Proof.
  unfold gather. induction idx as [|i idx IH]; [done|]. csimpl.
  rewrite list_lookup_fmap. destruct (l !! i); csimpl; by rewrite IH.
Qed.

Lemma gather_total `{!Inhabited A} (l : list A) (idx : list nat) :
  Forall (fun i => i < length l) idx ->
  gather l idx = (fun i => l !!! i) <$> idx.
Proof.
  unfold gather. induction 1 as [|i idx Hi _ IH]; [done|]. csimpl.
  by rewrite (list_lookup_lookup_total_lt l i Hi), IH.
Qed.

Lemma gather_seq (m : nat) (idx : list nat) :
  Forall (fun i => i < m) idx -> gather (seq 0 m) idx = idx.
Proof.
  unfold gather. induction 1 as [|i idx Hi _ IH]; [done|]. csimpl.
  by rewrite (lookup_seq_lt 0 m i Hi), IH.
Qed.

Lemma gather_all {A} (l : list A) : gather l (seq 0 (length l)) = l.
Proof.
  unfold gather. induction l as [|x l IH] using rev_ind; [done|].
  rewrite length_app. simpl. rewrite Nat.add_1_r, seq_S, omap_app. csimpl.
  rewrite list_lookup_middle by done. csimpl. f_equal.
  rewrite <- IH at 2. apply list_omap_ext.
  apply Forall2_same_length_lookup_2; [done|].
  intros i x1 x2 H1 H2. rewrite H1 in H2. injection H2 as <-.
  apply lookup_seq in H1 as [-> Hi]. by apply lookup_app_l.
Qed.

Lemma insert_by_mz_perm pks i sorted :
  insert_by_mz pks i sorted ≡ₚ i :: sorted.
Proof.
  induction sorted as [|j r IH]; simpl; [done|].
  destruct (PrimFloat.ltb _ _); [done|].
  rewrite IH. apply Permutation_swap.
Qed.

Lemma sorted_order_perm pks : sorted_order pks ≡ₚ seq 0 (length pks).
Proof.
  unfold sorted_order. induction (seq 0 (length pks)) as [|i l IH];
    simpl; [done|].
  by rewrite insert_by_mz_perm, IH.
Qed.

(** Selecting and then sorting amounts to selecting along a permutation
    of the selected indices. *)
Lemma sorted_selection_order `{!Inhabited A} (l : list A) (idx so : list nat) :
  Forall (fun i => i < length l) idx ->
  so ≡ₚ seq 0 (length idx) ->
  gather idx so ≡ₚ idx
  /\ gather (gather l idx) so = (fun i => l !!! i) <$> gather idx so.
Proof.
  intros Hidx Hso. split.
  - unfold gather at 1. rewrite Hso. fold (gather idx (seq 0 (length idx))).
    by rewrite gather_all.
  - rewrite (gather_total l idx Hidx). apply gather_fmap.
Qed.

Section AnnotationLookup.
Context {K : Kernel}.
Variable P : Params.
Variable spec : MSSpectrum.

Abbreviation d := (discover P (reserved P spec)).

Lemma charge_array_after_loop :
  annotate_charge P = true ->
  getIntegerDataArrays (selected P spec).1 !! charge_index_of spec
  = Some (mkIDA "charge"
            ((fun i => to_int (mono_isotopic_peak d !!! i))
               <$> seq 0 (length (peaks spec)))).
Proof.
  intros Hon. unfold selected. rewrite select_loop_arrays.
  unfold reserved, reserve, charge_index_of, iso_peak_count_index_of,
    with_arrays. rewrite Hon. simpl.
  assert (Hflat : forall ii,
    ii <> length (getIntegerDataArrays spec) ->
    flat_map (pushed P d (length (getIntegerDataArrays spec)) ii
                (length (getIntegerDataArrays spec)))
             (seq 0 (length (peaks spec)))
    = (fun i => to_int (mono_isotopic_peak d !!! i))
        <$> seq 0 (length (peaks spec))).
  { intros ii Hii. apply flat_map_singleton. intros i. unfold pushed.
    rewrite Hon, Nat.eqb_refl. simpl.
    destruct (Nat.eqb_spec (length (getIntegerDataArrays spec)) ii);
      [done|]. by rewrite andb_false_r. }
  assert (Hflat' :
    annotate_iso_peak_count P = false ->
    forall ii,
    flat_map (pushed P d (length (getIntegerDataArrays spec)) ii
                (length (getIntegerDataArrays spec)))
             (seq 0 (length (peaks spec)))
    = (fun i => to_int (mono_isotopic_peak d !!! i))
        <$> seq 0 (length (peaks spec))).
  { intros Hoff ii. apply flat_map_singleton. intros i. unfold pushed.
    by rewrite Hon, Hoff, Nat.eqb_refl. }
  destruct (annotate_iso_peak_count P) eqn:Hipc; simpl.
  - rewrite <- app_assoc. simpl. rewrite list_lookup_middle by done. simpl.
    unfold extended_by. simpl. f_equal. f_equal.
    unfold d, reserved, reserve, with_arrays in Hflat.
    rewrite Hon, Hipc in Hflat. simpl in Hflat.
    rewrite <- app_assoc in Hflat. simpl in Hflat.
    rewrite length_app. simpl. apply Hflat. lia.
  - rewrite list_lookup_middle by done. simpl.
    unfold extended_by. simpl. f_equal. f_equal.
    unfold d, reserved, reserve, with_arrays in Hflat'.
    rewrite Hon, Hipc in Hflat'. simpl in Hflat'. by apply Hflat'.
Qed.

Lemma count_array_after_loop :
  annotate_iso_peak_count P = true ->
  getIntegerDataArrays (selected P spec).1 !! iso_peak_count_index_of P spec
  = Some (mkIDA "iso_peak_count"
            ((fun i => to_int (Z.of_nat (iso_peak_count d !!! i)))
               <$> seq 0 (length (peaks spec)))).
Proof.
  intros Hon. unfold selected. rewrite select_loop_arrays.
  unfold d, reserved, reserve, charge_index_of, iso_peak_count_index_of,
    with_arrays. rewrite Hon. simpl.
  destruct (annotate_charge P) eqn:Hch; simpl.
  - rewrite list_lookup_middle by done. simpl.
    unfold extended_by. simpl. f_equal. f_equal.
    apply flat_map_singleton. intros i. unfold pushed.
    rewrite Hon, Hch, Nat.eqb_refl, length_app. simpl.
    by destruct (Nat.eqb_spec (length (getIntegerDataArrays spec) + 1)
                   (length (getIntegerDataArrays spec))); [lia|].
  - rewrite list_lookup_middle by done. simpl.
    unfold extended_by. simpl. f_equal. f_equal.
    apply flat_map_singleton. intros i. unfold pushed.
    by rewrite Hon, Hch, Nat.eqb_refl.
Qed.

End AnnotationLookup.

(** X12: when the routine returns on a spectrum with peaks, the rows of
    the output are the indices handed to [select], in some order: the
    output peak list holds, row by row, the rewritten peaks at these
    indices, and a reserved "charge" or "iso_peak_count" array holds in
    the same row the [(int)] cast of the stored charge, or of the stored
    peak count, of that same index. *)
Theorem output_rows `{K : Kernel} (P : Params) (spec out : MSSpectrum) :
  peaks spec <> [] ->
  deisotopeAndSingleCharge P spec = (Returned, out) ->
  let d := discover P (reserved P spec) in
  exists order,
    order ≡ₚ final_select_idx P spec
    /\ peaks out = (fun i => peaks (selected P spec).1 !!! i) <$> order
    /\ (annotate_charge P = true ->
        getIntegerDataArrays out !! charge_index_of spec
        = Some (mkIDA "charge"
                  ((fun i => to_int (mono_isotopic_peak d !!! i))
                     <$> order)))
    /\ (annotate_iso_peak_count P = true ->
        getIntegerDataArrays out !! iso_peak_count_index_of P spec
        = Some (mkIDA "iso_peak_count"
                  ((fun i => to_int (Z.of_nat (iso_peak_count d !!! i)))
                     <$> order))).
Proof.
  intros Hne Hrun. cbv zeta. unfold deisotopeAndSingleCharge in Hrun.
  destruct (assertions && negb (isSorted spec)); [discriminate|].
  destruct (illegal_isopeaks P); [discriminate|].
  destruct (peaks spec) as [|pk0 pks] eqn:Hpks; [done|].
  injection Hrun as <-.
  set (fin := final_select_idx P spec).
  set (sel := (selected P spec).1).
  set (so := sorted_order (peaks (select fin sel))).
  assert (Hn : length (peaks sel) = length (peaks spec))
    by apply selected_peaks_length.
  assert (Hfin : Forall (fun i => i < length (peaks spec)) fin)
    by apply final_select_idx_distinct.
  assert (Hso : so ≡ₚ seq 0 (length fin)).
  { unfold so. rewrite sorted_order_perm. unfold select. simpl.
    rewrite gather_in_range; [done|]. by rewrite Hn. }
  assert (Hrows : forall (f : nat -> Z),
    gather (gather (f <$> seq 0 (length (peaks spec))) fin) so
    = f <$> gather fin so).
  { intros f. by rewrite gather_fmap, gather_seq, gather_fmap. }
  exists (gather fin so). split; [|split; [|split]].
  - unfold gather at 1. rewrite Hso.
    fold (gather fin (seq 0 (length fin))). by rewrite gather_all.
  - change (peaks (sortByPosition (select fin sel)))
      with (gather (gather (peaks sel) fin) so).
    rewrite (gather_total (peaks sel) fin) by (by rewrite Hn).
    apply gather_fmap.
  - intros Hon.
    change (getIntegerDataArrays (sortByPosition (select fin sel)))
      with (map (fun a => mkIDA (getName a) (gather (ida_data a) so))
              (map (fun a => mkIDA (getName a) (gather (ida_data a) fin))
                 (getIntegerDataArrays sel))).
    rewrite map_map.
    match goal with |- context [map ?f ?l] => change (map f l) with (f <$> l) end.
    rewrite list_lookup_fmap.
    unfold sel. rewrite charge_array_after_loop by done.
    simpl. by rewrite Hrows.
  - intros Hon.
    change (getIntegerDataArrays (sortByPosition (select fin sel)))
      with (map (fun a => mkIDA (getName a) (gather (ida_data a) so))
              (map (fun a => mkIDA (getName a) (gather (ida_data a) fin))
                 (getIntegerDataArrays sel))).
    rewrite map_map.
    match goal with |- context [map ?f ?l] => change (map f l) with (f <$> l) end.
    rewrite list_lookup_fmap.
    unfold sel. rewrite count_array_after_loop by done.
    simpl. by rewrite Hrows.
Qed.

Lemma output_rows_witness :
  peaks Scenario.overlap <> []
  /\ exists order,
       order ≡ₚ final_select_idx (K := Model.kernel)
                  Scenario.overlap_params Scenario.overlap
       /\ getIntegerDataArrays
            (deisotopeAndSingleCharge (K := Model.kernel)
               Scenario.overlap_params Scenario.overlap).2
          !! charge_index_of Scenario.overlap
          = Some (mkIDA "charge"
                    ((fun i => to_int
                       (mono_isotopic_peak
                          (discover (K := Model.kernel)
                             Scenario.overlap_params
                             (reserved Scenario.overlap_params
                                Scenario.overlap)) !!! i)) <$> order)).
Proof.
  assert (Hne : peaks Scenario.overlap <> []) by discriminate.
  split; [exact Hne|].
  destruct (output_rows (K := Model.kernel) Scenario.overlap_params
              Scenario.overlap _ Hne eq_refl)
    as (order & Hperm & _ & Hcharge & _).
  exists order. split; [exact Hperm|]. exact (Hcharge eq_refl).
Defined.

(** ** The intensities after the loop over all peaks *)

Section FinalIntensity.
Context {K : Kernel}.
Variable P : Params.
Variable old_spectrum : MSSpectrum.

Abbreviation n := (size old_spectrum).
Abbreviation exhaustive_upto := (exhaustive_upto P old_spectrum).

Lemma seed_step_accepted_grows pass st cp g :
  add_up_intensity P = true ->
  consistent P old_spectrum st -> cp < n ->
  length (mono_iso_peak_intensity st) = n ->
  g ∈ accepted st -> g ∈ accepted (seed_step P old_spectrum pass st cp).
Proof.
  intros Hadd Hc Hcp Hl Hg.
  destruct (decide (features st !!! cp = (-1)%Z)) as [Hun|Hcl].
  - destruct (seed_step_settled P old_spectrum pass st cp Hadd Hc Hcp Hl Hun)
      as [(_ & -> & _)|(q & ext & -> & _)]; [done|].
    apply elem_of_app. by left.
  - by rewrite seed_step_claimed_accepted.
Qed.

(** Every peak passed by the loop holds its own intensity, unless it is
    the seed of an accepted group. *)
Lemma exhaustive_upto_intensity k :
  add_up_intensity P = true ->
  k <= n ->
  forall j, j < k ->
    mono_iso_peak_intensity (exhaustive_upto k) !! j
    = Some (getIntensity (peak old_spectrum j))
    \/ exists g, g ∈ accepted (exhaustive_upto k) /\ seed g = j.
Proof.
  intros Hadd. induction k as [|k IH]; intros Hk j Hj; [lia|].
  destruct (exhaustive_upto_spec P old_spectrum k) as (Hc & Hl & _); [lia|].
  unfold exhaustive_upto in *. rewrite seq_S, foldl_snoc. simpl.
  set (st := foldl _ _ _) in *.
  destruct (seed_step_intensity_frame P old_spectrum ExhaustivePass st k)
    as [_ Hoff].
  destruct (decide (j = k)) as [->|Hne].
  - destruct (decide (features st !!! k = (-1)%Z)) as [Hun|Hcl].
    + destruct (seed_step_settled P old_spectrum ExhaustivePass st k
                  Hadd Hc) as [(_ & _ & Hm)|(q & ext & Ha & _ & _)];
        try done; try lia.
      * by left.
      * right. exists (mkGroup k q ext). split; [|done].
        rewrite Ha. apply elem_of_app. right. by left.
    + left. apply seed_step_claimed_intensity; [done|done|lia].
  - destruct (IH ltac:(lia) j ltac:(lia)) as [Hm|(g & Hg & Hs)].
    + left. by rewrite Hoff.
    + right. exists g. split; [|done].
      apply seed_step_accepted_grows; done || lia.
Qed.

Lemma discover_intensity j :
  add_up_intensity P = true -> j < n ->
  mono_iso_peak_intensity (discover P old_spectrum) !!! j
  = getIntensity (peak old_spectrum j)
  \/ exists g, g ∈ accepted (discover P old_spectrum) /\ seed g = j.
Proof.
  intros Hadd Hj.
  destruct (exhaustive_upto_intensity n Hadd (le_n _) j Hj) as [Hm|Hg].
  - left. by apply list_lookup_total_correct.
  - by right.
Qed.

(** With an empty range of charges the search accepts nothing. *)
Lemma empty_range_seed_step pass st cp :
  (max_charge P < min_charge P)%Z ->
  accepted (seed_step P old_spectrum pass st cp) = accepted st.
Proof.
  intros Hr. unfold seed_step, charges.
  replace (Z.to_nat (max_charge P - min_charge P + 1)) with 0 by lia.
  simpl. unfold reset_intensity. by destruct (add_up_intensity P).
Qed.

End FinalIntensity.

(** A peak that is the seed of no accepted group leaves the first
    selection loop as it entered it. *)
Lemma non_seed_peak `{K : Kernel} (P : Params) (spec : MSSpectrum)
    (i : nat) :
  i < length (peaks spec) ->
  (forall g, g ∈ accepted (discover P (reserved P spec)) -> seed g <> i) ->
  mono_isotopic_peak (discover P (reserved P spec)) !!! i = 0%Z
  /\ peaks (selected P spec).1 !!! i = peaks spec !!! i.
Proof.
  intros Hi Hns.
  assert (Hsize : i < size (reserved P spec)).
  { unfold size. by rewrite reserved_peaks. }
  assert (Hz : mono_isotopic_peak (discover P (reserved P spec)) !!! i = 0%Z).
  { destruct (discover_tracked P (reserved P spec)) as [_ _ Hm _ _].
    destruct (Hm i Hsize) as [?|(g & Hg & Hs & _)]; [done|].
    by destruct (Hns g Hg). }
  split; [done|].
  rewrite selected_peak by done. unfold rewritten. rewrite Hz. simpl.
  assert (Hpk : (if add_up_intensity P
                 then setIntensity
                        (mono_iso_peak_intensity
                           (discover P (reserved P spec)) !!! i)
                        (peaks spec !!! i)
                 else peaks spec !!! i) = peaks spec !!! i).
  { destruct (add_up_intensity P) eqn:Hadd; [|done].
    destruct (discover_intensity P (reserved P spec) i Hadd Hsize)
      as [->|(g & Hg & Hs)]; [|by destruct (Hns g Hg)].
    unfold peak. rewrite reserved_peaks.
    by destruct (peaks spec !!! i). }
  rewrite Hpk. by destruct (negb _ && _).
Qed.

Lemma preserve_high_present (high sel : list nat) :
  (forall i, i ∈ high -> i ∈ sel) -> preserve_high high sel = sel.
Proof.
  unfold preserve_high. induction high as [|i high IH]; intros Hin;
    simpl; [done|].
  unfold push_if_absent at 2.
  destruct (decide (i ∈ sel)) as [_|Hout].
  - apply IH. intros j Hj. apply Hin. by right.
  - destruct Hout. apply Hin. by left.
Qed.

Lemma preserve_low_present (spec : MSSpectrum) (idx sel : list nat) :
  (forall i, i ∈ idx -> i ∈ sel) -> preserve_low spec idx sel = sel.
Proof.
  induction idx as [|i idx IH]; intros Hin; simpl; [done|].
  destruct (PrimFloat.ltb _ _); [|done].
  unfold push_if_absent.
  destruct (decide (i ∈ sel)) as [_|Hout].
  - apply IH. intros j Hj. apply Hin. by right.
  - destruct Hout. apply Hin. by left.
Qed.

Lemma filter_all {A} (f : A -> bool) (l : list A) :
  (forall x, x ∈ l -> f x = true) -> List.filter f l = l.
Proof.
  induction l as [|x l IH]; intros Hf; simpl; [done|].
  rewrite Hf by left. f_equal. apply IH. intros y Hy. apply Hf. by right.
Qed.

Lemma empty_range_accepted `{K : Kernel} (P : Params) (spec : MSSpectrum) :
  (max_charge P < min_charge P)%Z -> accepted (discover P spec) = [].
Proof.
  intros Hr. unfold discover.
  apply (foldl_invariant (fun st => accepted st = [])).
  - unfold seed_pass.
    apply (foldl_invariant (fun st => accepted st = [])); [done|].
    intros st cp _ Hst. by rewrite empty_range_seed_step.
  - intros st cp _ Hst. by rewrite empty_range_seed_step.
Qed.

Lemma nothing_accepted_selection `{K : Kernel} (P : Params)
    (spec : MSSpectrum) :
  keep_only_deisotoped P = false ->
  accepted (discover P (reserved P spec)) = [] ->
  final_select_idx P spec = seq 0 (length (peaks spec))
  /\ peaks (selected P spec).1 = peaks spec.
Proof.
  intros Hko Hacc.
  assert (Hsel : (selected P spec).2 = seq 0 (length (peaks spec))).
  { unfold selected. rewrite select_loop_kept. apply filter_all.
    intros i Hi. apply elem_of_seq in Hi. unfold kept_by_loop.
    rewrite Hko. simpl. apply orb_true_iff. left.
    apply unassigned_iff_unclaimed.
    - unfold size. rewrite reserved_peaks. lia.
    - intros g Hg. rewrite Hacc in Hg. by apply not_elem_of_nil in Hg. }
  split.
  - unfold final_select_idx.
    destruct (selected P spec) as [spec' sel]. simpl in Hsel. subst sel.
    rewrite preserve_high_present.
    + by apply preserve_low_present.
    + intros i Hi. apply high_intensity_peaks_range in Hi.
      unfold size in Hi. rewrite reserved_peaks in Hi.
      apply elem_of_seq. lia.
  - apply list_eq_same_length with (length (peaks spec));
      [done | by rewrite selected_peaks_length |].
    intros i x y Hi Hx Hy.
    apply list_lookup_total_correct in Hx, Hy.
    rewrite <- Hx, <- Hy. apply non_seed_peak; [done|].
    intros g Hg. rewrite Hacc in Hg. by apply not_elem_of_nil in Hg.
Qed.

(** X13: a peak that is the seed of no accepted group has the stored
    charge 0 and leaves the first selection loop with the m/z and the
    intensity it had in the input, whatever make_single_charged and
    add_up_intensity are: only seeds of accepted groups are rewritten. *)
Theorem only_seeds_rewritten `{K : Kernel} (P : Params) (spec : MSSpectrum)
    (i : nat) :
  i < length (peaks spec) ->
  (forall g, g ∈ accepted (discover P (reserved P spec)) -> seed g <> i) ->
  mono_isotopic_peak (discover P (reserved P spec)) !!! i = 0%Z
  /\ peaks (selected P spec).1 !!! i = peaks spec !!! i.
Proof. apply non_seed_peak. Qed.

Lemma only_seeds_rewritten_witness :
  1 < length (peaks Scenario.low_mass)
  /\ (forall g,
        g ∈ accepted (discover (K := Model.kernel) Scenario.low_mass_params
                        (reserved Scenario.low_mass_params
                           Scenario.low_mass)) ->
        seed g <> 1)
  /\ peaks (selected (K := Model.kernel)
              Scenario.low_mass_params Scenario.low_mass).1 !!! 1
     = peaks Scenario.low_mass !!! 1.
Proof.
  assert (Hi : 1 < length (peaks Scenario.low_mass)) by (simpl; lia).
  assert (Hns : forall g,
            g ∈ accepted (discover (K := Model.kernel)
                            Scenario.low_mass_params
                            (reserved Scenario.low_mass_params
                               Scenario.low_mass)) ->
            seed g <> 1).
  { intros g Hg. vm_compute in Hg.
    apply list_elem_of_singleton in Hg as ->. simpl. lia. }
  split; [exact Hi|]. split; [exact Hns|].
  exact (proj2 (only_seeds_rewritten (K := Model.kernel)
                  Scenario.low_mass_params Scenario.low_mass 1 Hi Hns)).
Defined.

(** X14: when keep_only_deisotoped is off and no group is accepted, the
    index list handed to [select] is 0, 1, ..., n - 1, each index once
    and in this order, and the peak list is the one of the input. *)
Theorem nothing_found_keeps_all `{K : Kernel} (P : Params)
    (spec : MSSpectrum) :
  keep_only_deisotoped P = false ->
  accepted (discover P (reserved P spec)) = [] ->
  final_select_idx P spec = seq 0 (length (peaks spec))
  /\ peaks (selected P spec).1 = peaks spec.
Proof. apply nothing_accepted_selection. Qed.

Lemma nothing_found_keeps_all_witness :
  keep_only_deisotoped Scenario.faint_params = false
  /\ accepted (discover (K := Model.kernel) Scenario.faint_params
                 (reserved Scenario.faint_params Scenario.apart)) = []
  /\ final_select_idx (K := Model.kernel) Scenario.faint_params
       Scenario.apart = [0; 1].
Proof.
  split; [reflexivity|]. split; [vm_compute; reflexivity|].
  exact (proj1 (nothing_found_keeps_all (K := Model.kernel)
                  Scenario.faint_params Scenario.apart
                  eq_refl ltac:(vm_compute; reflexivity))).
Defined.

(** X15: a charge range with max_charge below min_charge is no error: the
    search accepts no group, every peak keeps the stored charge 0, and
    with keep_only_deisotoped off every peak index is handed to
    [select]. *)
Theorem empty_charge_range `{K : Kernel} (P : Params) (spec : MSSpectrum) :
  (max_charge P < min_charge P)%Z ->
  let d := discover P (reserved P spec) in
  accepted d = []
  /\ (forall i, i < length (peaks spec) ->
        mono_isotopic_peak d !!! i = 0%Z)
  /\ (keep_only_deisotoped P = false ->
      final_select_idx P spec = seq 0 (length (peaks spec))).
Proof.
  intros Hr. cbv zeta.
  pose proof (empty_range_accepted P (reserved P spec) Hr) as Hacc.
  split; [done|]. split.
  - intros i Hi. apply non_seed_peak; [done|].
    intros g Hg. rewrite Hacc in Hg. by apply not_elem_of_nil in Hg.
  - intros Hko. by apply nothing_accepted_selection.
Qed.

Lemma empty_charge_range_witness :
  (max_charge Scenario.empty_range_params
   < min_charge Scenario.empty_range_params)%Z
  /\ accepted (discover (K := Model.kernel) Scenario.empty_range_params
                 (reserved Scenario.empty_range_params Scenario.doublet))
     = []
  /\ final_select_idx (K := Model.kernel) Scenario.empty_range_params
       Scenario.doublet = [0; 1; 2].
Proof.
  assert (Hr : (max_charge Scenario.empty_range_params
                < min_charge Scenario.empty_range_params)%Z)
    by (simpl; lia).
  split; [exact Hr|].
  destruct (empty_charge_range (K := Model.kernel)
              Scenario.empty_range_params Scenario.doublet Hr)
    as (Hacc & _ & Hall).
  split; [exact Hacc|]. exact (Hall eq_refl).
Defined.

(** ** Accepted groups are runs that passed every test *)

Section RunFacts.
Context {K : Kernel}.
Variable P : Params.
Variable old_spectrum : MSSpectrum.

Abbreviation chained := (chained P old_spectrum).
Abbreviation sound := (sound P old_spectrum).

Lemma chained_snoc pass cp q ext p :
  ext <> [] ->
  chained pass cp q ext ->
  taken P old_spectrum pass cp q (length ext) p (back cp ext) ->
  chained pass cp q (ext ++ [p]).
Proof.
  intros Hne Hch Ht i p' prev Hp Hprev.
  assert (Hlen : 0 < length ext) by (destruct ext; [done | simpl; lia]).
  destruct (decide (S i < length ext)) as [Hlt|Hge].
  - rewrite lookup_app_l in Hp by lia. rewrite lookup_app_l in Hprev by lia.
    by apply Hch.
  - assert (Hi : S i = length ext).
    { apply lookup_lt_Some in Hp. rewrite length_app in Hp. simpl in Hp.
      lia. }
    rewrite Hi in Hp |- *. rewrite list_lookup_middle in Hp by done.
    injection Hp as <-.
    rewrite lookup_app_l in Hprev by lia.
    unfold back in Ht. rewrite last_lookup in Ht.
    replace (pred (length ext)) with i in Ht by lia.
    by rewrite Hprev in Ht.
Qed.

Lemma extend_chained pass cp q todo :
  forall i ext ipc,
    length ext = i -> ext <> [] ->
    chained pass cp q ext ->
    chained pass cp q (extend P old_spectrum pass cp q todo i ext ipc).1.1.
Proof.
  induction todo as [|todo IH]; intros i ext ipc Hlen Hne Hch; simpl;
    [done|].
  destruct (findNearest _ _ _) as [p|] eqn:Hfind; [|done].
  destruct (decreasing_violated _ _ _ _ _) eqn:Hdec; [done|].
  destruct (satellite _ _ _ _) eqn:Hsat; [done|].
  destruct (noise _ _ _ _ _) eqn:Hnoise; [done|].
  apply IH.
  - rewrite length_app. simpl. lia.
  - by destruct ext.
  - apply chained_snoc; [done|done|]. rewrite Hlen. by repeat split.
Qed.

Lemma extension_chained pass cp q :
  chained pass cp q (extension P old_spectrum pass cp q).
Proof.
  unfold extension, run. apply extend_chained; [done|done|].
  intros i p prev Hp Hprev. by destruct i.
Qed.

Lemma try_charge_sound pass cp st q :
  Forall sound (accepted st) ->
  Forall sound (accepted (try_charge P old_spectrum pass cp st q)).
Proof.
  intros Hst. unfold try_charge.
  destruct (features st !!! cp =? -1)%Z; [|done].
  destruct (pruned P old_spectrum cp q) eqn:Hpr; [done|].
  destruct (run P old_spectrum pass cp q (iso_peak_count st))
    as [[ext ipc] ok] eqn:Hrun.
  destruct ok; simpl; [|done].
  apply Forall_app. split; [done|]. constructor; [|constructor].
  split; [done|]. exists pass. simpl.
  by rewrite <- (run_members P old_spectrum pass cp q (iso_peak_count st)),
    Hrun.
Qed.

Lemma seed_step_sound pass st cp :
  Forall sound (accepted st) ->
  Forall sound (accepted (seed_step P old_spectrum pass st cp)).
Proof.
  intros Hst. unfold seed_step.
  apply (foldl_invariant (fun st' => Forall sound (accepted st'))).
  - unfold reset_intensity. by destruct (add_up_intensity P).
  - intros st' q _. apply try_charge_sound.
Qed.

Lemma discover_sound : Forall sound (accepted (discover P old_spectrum)).
Proof.
  unfold discover.
  apply (foldl_invariant (fun st => Forall sound (accepted st))).
  - unfold seed_pass.
    apply (foldl_invariant (fun st => Forall sound (accepted st)));
      [by constructor|].
    intros st cp _. apply seed_step_sound.
  - intros st cp _. apply seed_step_sound.
Qed.

End RunFacts.



(** X21: along an accepted group the intensity tests hold between
    neighbours: the first isotope peak is never more than 10 times as
    intense as the seed, and with use_decreasing_model no peak at a
    position from start_intensity_check on is more intense than the peak
    before it. *)
Theorem accepted_group_intensities `{K : Kernel} (P : Params)
    (spec : MSSpectrum) (g : Group) (i p prev : nat) :
  g ∈ accepted (discover P spec) ->
  members g !! S i = Some p -> members g !! i = Some prev ->
  (i = 0 ->
   prev = seed g
   /\ PrimFloat.ltb 10 (getIntensity (peak spec p)
                        / getIntensity (peak spec (seed g))) = false)
  /\ (use_decreasing_model P = true -> start_intensity_check P <= S i ->
      PrimFloat.ltb (getIntensity (peak spec prev))
                    (getIntensity (peak spec p)) = false).
Proof.
  intros Hg Hp Hprev. pose proof (discover_sound P spec) as Hall.
  rewrite Forall_forall in Hall.
  destruct (Hall g Hg) as (_ & pass & Hm).
  pose proof (extension_chained P spec pass (seed g) (charge g)) as Hch.
  rewrite <- Hm in Hch.
  destruct (Hch i p prev Hp Hprev) as (_ & Hdec & Hsat & _).
  split.
  - intros ->.
    destruct (extension_head P spec pass (seed g) (charge g)) as [rest Hh].
    rewrite Hm, Hh in Hprev. injection Hprev as <-.
    split; [done|]. unfold satellite, ratio in Hsat. by simpl in Hsat.
  - intros Hmodel Hstart. unfold decreasing_violated in Hdec.
    rewrite Hmodel in Hdec.
    apply Nat.leb_le in Hstart. rewrite Hstart in Hdec. by simpl in Hdec.
Qed.

Lemma accepted_group_intensities_witness :
  mkGroup 1 1 [1; 2]
    ∈ accepted (discover (K := Model.kernel) Scenario.overlap_params
                  Scenario.overlap)
  /\ [1; 2] !! 1 = Some 2 /\ [1; 2] !! 0 = Some 1
  /\ PrimFloat.ltb 10 (getIntensity (peak Scenario.overlap 2)
                       / getIntensity (peak Scenario.overlap 1)) = false.
Proof.
  assert (Hg : mkGroup 1 1 [1; 2]
    ∈ accepted (discover (K := Model.kernel) Scenario.overlap_params
                  Scenario.overlap)).
  { apply list_elem_of_lookup. exists 1. vm_compute. reflexivity. }
  split; [exact Hg|]. split; [reflexivity|]. split; [reflexivity|].
  exact (proj2 (proj1 (accepted_group_intensities (K := Model.kernel)
                         Scenario.overlap_params Scenario.overlap
                         (mkGroup 1 1 [1; 2]) 0 2 1 Hg eq_refl eq_refl)
                  eq_refl)).
Defined.

(** * Properties of Identification::SearchParameters *)

Lemma vector_eqb_refl (a : list string) : Identification.vector_eqb a a = true.
Proof.
  induction a as [|x a IH]; simpl; [done|].
  by rewrite String.eqb_refl, IH.
Qed.

Lemma operator_eq_spec (this rhs : Identification.SearchParameters) :
  Identification.operator_eq this rhs = true
  <-> Identification.db this = Identification.db rhs
      /\ Identification.db_version this = Identification.db_version rhs
      /\ PrimFloat.is_nan (Identification.peak_mass_tolerance this) = false
      /\ PrimFloat.is_nan (Identification.precursor_tolerance this) = false.
Proof.
  unfold Identification.operator_eq, PrimFloat.is_nan.
  rewrite !String.eqb_refl, !vector_eqb_refl, N.eqb_refl.
  assert (Hm : Identification.PeakMassType_eqb
                 (Identification.mass_type this)
                 (Identification.mass_type this) = true)
    by (by destruct (Identification.mass_type this)).
  assert (He : Identification.DigestionEnzyme_eqb
                 (Identification.enzyme this)
                 (Identification.enzyme this) = true)
    by (by destruct (Identification.enzyme this)).
  rewrite Hm, He, !andb_true_r, !andb_true_iff, !negb_false_iff.
  rewrite !String.eqb_eq. tauto.
Qed.

(** X16: [==] on search parameters reads two members of its argument
    only: it holds exactly when the database and the database version
    agree and neither tolerance of the left operand is a NaN; taxonomy,
    charges, mass type, modifications, enzyme, missed cleavages and the
    tolerances of the right operand have no influence.  With [!=], a
    parameter set differs from itself exactly when one of its tolerances
    is a NaN. *)
Theorem search_parameters_eq (this rhs : Identification.SearchParameters) :
  (Identification.operator_eq this rhs = true
   <-> Identification.db this = Identification.db rhs
       /\ Identification.db_version this = Identification.db_version rhs
       /\ PrimFloat.is_nan (Identification.peak_mass_tolerance this) = false
       /\ PrimFloat.is_nan (Identification.precursor_tolerance this) = false)
  /\ (Identification.operator_ne this this = true
      <-> PrimFloat.is_nan (Identification.peak_mass_tolerance this) = true
          \/ PrimFloat.is_nan (Identification.precursor_tolerance this)
             = true).
Proof.
  split; [apply operator_eq_spec|].
  unfold Identification.operator_ne. rewrite negb_true_iff.
  pose proof (operator_eq_spec this this) as Hspec.
  destruct (Identification.operator_eq this this),
    (PrimFloat.is_nan (Identification.peak_mass_tolerance this)),
    (PrimFloat.is_nan (Identification.precursor_tolerance this));
    intuition congruence.
Qed.

(** * Properties of tokenize (common_functions.php) *)

Section TokenizeFacts.
Import CommonFunctions.

Lemma identifier_char_no_space c :
  isIdentifierChar c = true -> isSpace c = false.
Proof.
  destruct c as [[] [] [] [] [] [] [] []]; vm_compute; congruence.
Qed.

Lemma substr_snoc (line : list ascii) (s i : nat) (c : ascii) :
  s <= i -> line !! i = Some c ->
  substr line s (S i - s) = substr line s (i - s) ++ [c].
Proof.
  intros Hs Hc. unfold substr.
  replace (S i - s) with (S (i - s)) by lia.
  apply take_S_r. rewrite lookup_drop.
  by replace (s + (i - s)) with i by lia.
Qed.

Lemma substr_app (line w : list ascii) (s i : nat) :
  i <= length line -> substr (line ++ w) s (i - s) = substr line s (i - s).
Proof.
  intros Hi. unfold substr.
  destruct (decide (s <= length line)) as [Hs|Hs].
  - rewrite drop_app_le by done. rewrite take_app_le; [done|].
    rewrite length_drop. lia.
  - by replace (i - s) with 0 by lia.
Qed.

Lemma tokenize_step_tokenized line k t :
  k < length line -> tokenized line k t ->
  tokenized line (S k) (tokenize_step line t k).
Proof.
  intros Hk [Hst Hp Htok Hcov].
  destruct (lookup_lt_is_Some_2 line k Hk) as [c Hc].
  assert (Htake :
    List.filter (fun c => negb (isSpace c)) (take (S k) line)
    = List.filter (fun c => negb (isSpace c)) (take k line)
      ++ (if isSpace c then [] else [c])).
  { rewrite (take_S_r line k c Hc), List.filter_app. simpl.
    by destruct (isSpace c). }
  unfold tokenize_step. rewrite Hc. unfold pending in Hcov, Hp.
  destruct Hst as [Hst|[Hst Hlt]]; rewrite Hst in *; simpl in *.
  - rewrite app_nil_r in Hcov.
    assert (Hone : substr line k (S k - k) = [c]).
    { unfold substr. replace (S k - k) with 1 by lia.
      by rewrite (drop_S line c k Hc). }
    destruct (isIdentifierChar c) eqn:Hid.
    + rewrite (identifier_char_no_space c Hid) in Htake.
      constructor; unfold pending; simpl; rewrite ?Hone.
      * right. split; [done|lia].
      * by constructor.
      * done.
      * by rewrite Htake, Hcov.
    + destruct (isSpace c) eqn:Hsp; simpl;
        constructor; unfold pending; simpl; rewrite ?Hst; simpl.
      * by left.
      * constructor.
      * done.
      * by rewrite Htake, Hcov.
      * by left.
      * constructor.
      * apply Forall_app. split; [done|]. constructor; [|constructor].
        right. by exists c.
      * by rewrite concat_app, Htake, Hcov; simpl; rewrite !app_nil_r.
  - destruct (isIdentifierChar c) eqn:Hid; simpl.
    + rewrite (identifier_char_no_space c Hid) in Htake.
      constructor; unfold pending; simpl; rewrite ?Hst; simpl;
        rewrite ?(substr_snoc line _ k c) by (done || lia).
      * right. split; [done|lia].
      * apply Forall_app. split; [done|]. by constructor.
      * done.
      * by rewrite app_assoc, Hcov, Htake.
    + assert (Hident : identifier_token (substr line (start t) (k - start t))).
      { split; [|done]. unfold substr. intros Hnil.
        apply (f_equal length) in Hnil.
        rewrite length_take, length_drop in Hnil. simpl in Hnil. lia. }
      destruct (isSpace c) eqn:Hsp; simpl;
        constructor; unfold pending; simpl.
      * by left.
      * constructor.
      * apply Forall_app. split; [done|]. constructor; [|constructor].
        by left.
      * by rewrite concat_app, Htake, <- Hcov; simpl; rewrite !app_nil_r.
      * by left.
      * constructor.
      * rewrite !Forall_app. split; [split; [done|]|].
        -- constructor; [|constructor]. by left.
        -- constructor; [|constructor]. right. by exists c.
      * rewrite !concat_app, Htake, <- Hcov. simpl.
        by rewrite !app_nil_r, <- !app_assoc.
Qed.

Lemma tokenize_upto_tokenized line k :
  k <= length line -> tokenized line k (tokenize_upto line k).
Proof.
  induction k as [|k IH]; intros Hk.
  - constructor; simpl; try done; try (by left); constructor.
  - unfold tokenize_upto. rewrite seq_S, foldl_app. simpl.
    apply tokenize_step_tokenized; [lia|]. apply IH. lia.
Qed.

(** The loop reads its line below the current index only. *)
Lemma tokenize_upto_app line w k :
  k <= length line -> tokenize_upto (line ++ w) k = tokenize_upto line k.
Proof.
  induction k as [|k IH]; intros Hk; [done|].
  unfold tokenize_upto in *. rewrite !seq_S, !foldl_app. simpl.
  rewrite IH by lia. unfold tokenize_step.
  rewrite lookup_app_l by lia.
  destruct (line !! k); [|done].
  by rewrite (substr_app line w _ k) by lia.
Qed.

(** Identifier characters at the end of the line add no token. *)
Lemma tokenize_upto_identifier line w :
  Forall (fun c => isIdentifierChar c = true) w ->
  result (tokenize_upto (line ++ w) (length line + length w))
  = result (tokenize_upto line (length line)).
Proof.
  induction w as [|c w IH] using rev_ind; intros Hw.
  - by rewrite app_nil_r, Nat.add_0_r.
  - apply Forall_app in Hw as [Hw Hc]. apply Forall_inv in Hc.
    simpl in Hc.
    rewrite length_app. simpl.
    replace (length line + (length w + 1)) with (S (length line + length w))
      by lia.
    unfold tokenize_upto at 1. rewrite seq_S, foldl_app. simpl.
    fold (tokenize_upto (line ++ w ++ [c]) (length line + length w)).
    rewrite app_assoc.
    rewrite tokenize_upto_app by (rewrite length_app; lia).
    rewrite <- (IH Hw). unfold tokenize_step.
    rewrite list_lookup_middle by (rewrite length_app; lia).
    rewrite Hc. simpl. by destruct (state _ =? 0).
Qed.

End TokenizeFacts.

(** X17: every token that tokenize returns is either an identifier token,
    a non-empty string of identifier characters, or an operator token,
    one character that is neither an identifier character nor a space; no
    token is empty and no token holds a space, a tab or a line feed. *)
Theorem tokenize_tokens (line tok : list ascii) :
  tok ∈ CommonFunctions.tokenize line ->
  (CommonFunctions.identifier_token tok \/ CommonFunctions.operator_token tok)
  /\ tok <> []
  /\ Forall (fun c => CommonFunctions.isSpace c = false) tok.
Proof.
  intros Htok.
  destruct (tokenize_upto_tokenized line (length line) (le_n _))
    as [_ _ Hall _].
  rewrite Forall_forall in Hall. specialize (Hall tok Htok).
  split; [done|].
  destruct Hall as [[Hne Hid]|(c & -> & _ & Hsp)].
  - split; [done|]. eapply Forall_impl; [exact Hid|].
    apply identifier_char_no_space.
  - split; [done|]. by constructor.
Qed.

Lemma tokenize_tokens_witness :
  list_ascii_of_string "+"
  ∈ CommonFunctions.tokenize (list_ascii_of_string "a+b ")
  /\ CommonFunctions.operator_token (list_ascii_of_string "+").
Proof.
  assert (Hin : list_ascii_of_string "+"
                ∈ CommonFunctions.tokenize (list_ascii_of_string "a+b ")).
  { vm_compute. right. left. }
  split; [exact Hin|].
  destruct (proj1 (tokenize_tokens _ _ Hin)) as [[_ Hid]|Hop];
    [|exact Hop].
  apply Forall_inv in Hid. vm_compute in Hid. discriminate.
Defined.

(** X18: identifier characters at the end of a line produce no token:
    tokenize returns for a line followed by identifier characters what it
    returns for the line alone, so that the identifier a line ends with
    is never returned. *)
Theorem tokenize_drops_last_identifier (line w : list ascii) :
  Forall (fun c => CommonFunctions.isIdentifierChar c = true) w ->
  CommonFunctions.tokenize (line ++ w) = CommonFunctions.tokenize line.
Proof.
  intros Hw. unfold CommonFunctions.tokenize. rewrite length_app.
  by apply tokenize_upto_identifier.
Qed.

Lemma tokenize_drops_last_identifier_witness :
  Forall (fun c => CommonFunctions.isIdentifierChar c = true)
         (list_ascii_of_string "bar")
  /\ CommonFunctions.tokenize (list_ascii_of_string "foo = bar")
     = [list_ascii_of_string "foo"; list_ascii_of_string "="].
Proof.
  assert (Hw : Forall (fun c => CommonFunctions.isIdentifierChar c = true)
                      (list_ascii_of_string "bar"))
    by (repeat constructor).
  split; [exact Hw|].
  exact (eq_trans
           (tokenize_drops_last_identifier
              (list_ascii_of_string "foo = ") (list_ascii_of_string "bar")
              Hw)
           eq_refl).
Defined.

(** X19: on a line whose last character is not an identifier character,
    the tokens of tokenize, concatenated, are the line without its
    spaces, tabs and line feeds: no other character is lost, added or
    moved. *)
Theorem tokenize_covers (line : list ascii) (c : ascii) :
  last line = Some c ->
  CommonFunctions.isIdentifierChar c = false ->
  concat (CommonFunctions.tokenize line)
  = List.filter (fun c => negb (CommonFunctions.isSpace c)) line.
Proof.
  intros Hlast Hc.
  apply last_Some in Hlast as [line' ->].
  unfold CommonFunctions.tokenize. rewrite length_app. simpl.
  rewrite Nat.add_1_r.
  assert (Hk : length line' < length (line' ++ [c]))
    by (rewrite length_app; simpl; lia).
  pose proof (tokenize_upto_tokenized (line' ++ [c]) (length line')
                ltac:(lia)) as Hprev.
  pose proof (tokenize_step_tokenized _ _ _ Hk Hprev) as [_ _ _ Hcov].
  unfold CommonFunctions.tokenize_upto in *.
  rewrite seq_S, foldl_app. simpl.
  set (t := foldl _ _ _) in *.
  assert (Hst : CommonFunctions.state
                  (CommonFunctions.tokenize_step (line' ++ [c]) t
                     (length line')) = 0).
  { destruct Hprev as [Hst _ _ _]. unfold CommonFunctions.tokenize_step.
    rewrite list_lookup_middle by done. rewrite Hc. simpl.
    destruct Hst as [Hst|[Hst _]]; rewrite Hst; simpl.
    - by destruct (CommonFunctions.isSpace c).
    - by destruct (CommonFunctions.isSpace c). }
  unfold CommonFunctions.pending in Hcov. rewrite Hst in Hcov.
  simpl in Hcov. rewrite app_nil_r in Hcov. rewrite Hcov.
  f_equal. replace (S (length line')) with (length (line' ++ [c]))
    by (rewrite length_app; simpl; lia).
  apply firstn_all.
Qed.

Lemma tokenize_covers_witness :
  last (list_ascii_of_string "a = b;") = Some ";"%char
  /\ concat (CommonFunctions.tokenize (list_ascii_of_string "a = b;"))
     = list_ascii_of_string "a=b;".
Proof.
  split; [reflexivity|].
  exact (eq_trans
           (tokenize_covers (list_ascii_of_string "a = b;") ";"%char
              eq_refl eq_refl)
           eq_refl).
Defined.
